(** * Vector FX landing page script (src/script.js): a shallow embedding

    JavaScript strings are sequences of UTF-16 code units, modelled as
    [list Z].  DOM state is modelled by small records; effects that the
    script only triggers (shake, announcements, network calls, analytics)
    are recorded in an effect log. *)

From Stdlib Require Import List ZArith Lia Bool String Ascii QArith Qround Lqa Sorted.
Import ListNotations.

Definition jsstr := list Z.

(** Code unit of an ASCII character. *)
Definition cu (a : ascii) : Z := Z.of_nat (nat_of_ascii a).

(** A Rocq string literal read as a JavaScript string. *)
Fixpoint js (s : string) : jsstr :=
  match s with
  | EmptyString => []
  | String a s' => cu a :: js s'
  end.

(** ** Regular expressions, as used by [RegExp.prototype.test] *)
Module Regex.

Inductive re :=
| Void
| Eps
| Cls (rs : list (Z * Z))     (* a character class [lo-hi ...] *)
| Cat (r1 r2 : re)
| Alt (r1 r2 : re)
| Star (r : re).

Definition in_cls (rs : list (Z * Z)) (c : Z) : bool :=
  existsb (fun '(lo, hi) => (lo <=? c)%Z && (c <=? hi)%Z) rs.

(** [r+], [r?] and [r{0,n}] *)
Definition Plus (r : re) : re := Cat r (Star r).
Definition Opt (r : re) : re := Alt r Eps.
Fixpoint UpTo (n : nat) (r : re) : re :=
  match n with
  | O => Eps
  | S n' => Alt Eps (Cat r (UpTo n' r))
  end.

(** The language of a regular expression. *)
Inductive lang : re -> jsstr -> Prop :=
| L_eps : lang Eps []
| L_cls rs c : in_cls rs c = true -> lang (Cls rs) [c]
| L_cat r1 r2 s1 s2 : lang r1 s1 -> lang r2 s2 -> lang (Cat r1 r2) (s1 ++ s2)
| L_altl r1 r2 s : lang r1 s -> lang (Alt r1 r2) s
| L_altr r1 r2 s : lang r2 s -> lang (Alt r1 r2) s
| L_star0 r : lang (Star r) []
| L_star r s1 s2 : lang r s1 -> lang (Star r) s2 -> lang (Star r) (s1 ++ s2).

(** An executable matcher by Brzozowski derivatives.  A pattern anchored
    with [^...$] and without the [m] flag succeeds exactly when the whole
    input is in its language. *)
Fixpoint nullable (r : re) : bool :=
  match r with
  | Void => false
  | Eps => true
  | Cls _ => false
  | Cat a b => nullable a && nullable b
  | Alt a b => nullable a || nullable b
  | Star _ => true
  end.

Definition cat (a b : re) : re :=
  match a with
  | Void => Void
  | Eps => b
  | _ => match b with Void => Void | _ => Cat a b end
  end.

Definition alt (a b : re) : re :=
  match a with
  | Void => b
  | _ => match b with Void => a | _ => Alt a b end
  end.

Fixpoint deriv (c : Z) (r : re) : re :=
  match r with
  | Void => Void
  | Eps => Void
  | Cls rs => if in_cls rs c then Eps else Void
  | Cat a b =>
      if nullable a then alt (cat (deriv c a) b) (deriv c b)
      else cat (deriv c a) b
  | Alt a b => alt (deriv c a) (deriv c b)
  | Star a => cat (deriv c a) (Star a)
  end.

Fixpoint matches (r : re) (s : jsstr) : bool :=
  match s with
  | [] => nullable r
  | c :: s' => matches (deriv c r) s'
  end.

End Regex.

Import Regex.

(** ** Email validation (isValidEmail, lines 156-160) *)

Definition rg (a b : ascii) : Z * Z := (cu a, cu b).
Definition ch (a : ascii) : Z * Z := (cu a, cu a).

(** [a-zA-Z0-9.!#$%&'*+/=?^_`{|}~-] *)
Definition local_ranges : list (Z * Z) :=
  [rg "a" "z"; rg "A" "Z"; rg "0" "9"; ch "."; ch "!"; ch "#"; ch "$";
   ch "%"; ch "&"; ch "'"; ch "*"; ch "+"; ch "/"; ch "="; ch "?"; ch "^";
   ch "_"; ch "`"; ch "{"; ch "|"; ch "}"; ch "~"; ch "-"].

(** [a-zA-Z0-9] *)
Definition alnum_ranges : list (Z * Z) := [rg "a" "z"; rg "A" "Z"; rg "0" "9"].

(** [a-zA-Z0-9-] *)
Definition ldh_ranges : list (Z * Z) :=
  [rg "a" "z"; rg "A" "Z"; rg "0" "9"; ch "-"].

(** [a-zA-Z0-9](?:[a-zA-Z0-9-]{0,61}[a-zA-Z0-9])? *)
Definition label_re : re :=
  Cat (Cls alnum_ranges)
      (Opt (Cat (UpTo 61 (Cls ldh_ranges)) (Cls alnum_ranges))).

(** /^[local]+@label(?:\.label)*$/ *)
Definition emailRegex : re :=
  Cat (Plus (Cls local_ranges))
      (Cat (Cls [ch "@"])
           (Cat label_re (Star (Cat (Cls [ch "."]) label_re)))).

Definition isValidEmail (email : jsstr) : bool :=
  matches emailRegex email && (Z.of_nat (List.length email) <=? 254)%Z.

(** The address shape described in the specification: a non-empty local
    part (the specification leaves its alphabet open; it is read here as
    the RFC 5322 atext characters and '.'), an '@', and a non-empty
    dot-separated sequence of domain labels, each of 1 to 63 characters
    drawn from letters, digits and '-', beginning and ending with a letter
    or digit; at most 254 characters in total. *)
Definition alnum (c : Z) : bool := in_cls alnum_ranges c.

Definition label_ok (l : jsstr) : bool :=
  (1 <=? List.length l)%nat && (List.length l <=? 63)%nat
  && forallb (in_cls ldh_ranges) l
  && alnum (hd 0%Z l) && alnum (last l 0%Z).

Fixpoint join (sep : Z) (ls : list jsstr) : jsstr :=
  match ls with
  | [] => []
  | [l] => l
  | l :: ls' => l ++ sep :: join sep ls'
  end.

Definition email_shape (s : jsstr) : Prop :=
  exists local labels,
    s = local ++ cu "@" :: join (cu ".") labels
    /\ local <> []
    /\ Forall (fun c => in_cls local_ranges c = true) local
    /\ labels <> []
    /\ Forall (fun l => label_ok l = true) labels
    /\ (List.length s <= 254)%nat.

(** A 255-character address of the accepted shape apart from its length. *)
Definition long255 : jsstr := repeat (cu "a") 253 ++ js "@b".

(** ** String.prototype.trim: strips WhiteSpace and LineTerminator code
    units from both ends. *)
Definition js_ws (c : Z) : bool :=
  existsb (Z.eqb c)
    [9; 10; 11; 12; 13; 32; 160; 5760; 8239; 8287; 8232; 8233; 12288; 65279]%Z
  || ((8192 <=? c) && (c <=? 8202))%Z.

Fixpoint drop_ws (s : jsstr) : jsstr :=
  match s with
  | [] => []
  | c :: s' => if js_ws c then drop_ws s' else s
  end.

Definition trim (s : jsstr) : jsstr := rev (drop_ws (rev (drop_ws s))).

(** String.prototype.split with a one-character separator. *)
Fixpoint split_on (sep : Z) (s : jsstr) : list jsstr :=
  match s with
  | [] => [[]]
  | c :: s' =>
      if (c =? sep)%Z then [] :: split_on sep s'
      else match split_on sep s' with
           | w :: ws => (c :: w) :: ws
           | [] => [[c]]
           end
  end.

(** ** Waitlist form (initWaitlistForm / handleFormSubmit, lines 82-151) *)
Module Waitlist.

Record button := mkButton {
  disabled : bool;
  aria_busy : option string;     (* the aria-busy attribute *)
  innerHTML : string
}.

(** Analytics data: the object [{ email_domain: ... }]; [None] is [undefined]. *)
Definition event_data := list (string * option jsstr).

Inductive effect :=
| Shake                          (* shakeElement(emailInput) *)
| FocusEmail                     (* emailInput.focus() *)
| Announce (msg : string)        (* announceToScreenReader(msg) *)
| Fetch                          (* fetch(form.action, { method: 'POST', ... }) *)
| Confetti                       (* createConfetti() *)
| Gtag (name : string) (data : event_data)
| ConsoleLog (name : string) (data : event_data)
| ConsoleError (msg : string).

Record ui := mkUi {
  btn : button;                  (* button[type="submit"] *)
  form_display : option string;  (* form.style.display *)
  success_show : bool;           (* successMessage has class 'show' *)
  log : list effect
}.

Record env := mkEnv {
  reduced_motion : bool;         (* prefersReducedMotion() *)
  gtag_defined : bool;           (* typeof gtag === 'function' *)
  hostname : string              (* window.location.hostname *)
}.

(** Outcome of the awaited [fetch]: a rejected promise or a response. *)
Inductive fetch_result :=
| NetworkError
| Response (ok : bool).

Definition emit (u : ui) (e : effect) : ui :=
  mkUi (btn u) (form_display u) (success_show u) (log u ++ [e]).

Definition emits (u : ui) (es : list effect) : ui :=
  mkUi (btn u) (form_display u) (success_show u) (log u ++ es).

Definition set_btn (u : ui) (b : button) : ui :=
  mkUi b (form_display u) (success_show u) (log u).

Definition hide_form (u : ui) : ui :=
  mkUi (btn u) (Some "none"%string) (success_show u) (log u).

Definition show_success (u : ui) : ui :=
  mkUi (btn u) (form_display u) true (log u).

Definition msg_invalid := "Please enter a valid email address"%string.
Definition msg_success :=
  "Success! You're on the waitlist. We'll be in touch soon."%string.
Definition msg_error := "There was an error. Please try again."%string.
Definition joining_html := "<span>Joining...</span>"%string.

(** trackEvent (lines 358-370) *)
Definition trackEvent (en : env) (eventName : string) (eventData : event_data)
  : list effect :=
  (if gtag_defined en then [Gtag eventName eventData] else [])
  ++ (if (String.eqb (hostname en) "localhost"
          || String.eqb (hostname en) "127.0.0.1")%bool
      then [ConsoleLog eventName eventData] else []).

(** { email_domain: email.split('@')[1] } *)
Definition signup_data (email : jsstr) : event_data :=
  [("email_domain"%string, nth_error (split_on (cu "@") email) 1)].

(** The synchronous part of handleFormSubmit, up to the [await fetch]. *)
Inductive stage :=
| Done (u : ui)
| Pending (u : ui) (originalButtonContent : string) (email : jsstr).

Definition submit_start (u : ui) (value : jsstr) : stage :=
  let email := trim value in
  if (match email with [] => true | _ => false end) || negb (isValidEmail email)
  then Done (emit (emit (emit u Shake) FocusEmail) (Announce msg_invalid))
  else
    let originalButtonContent := innerHTML (btn u) in
    let u1 := set_btn u (mkButton true (Some "true"%string) joining_html) in
    Pending (emit u1 Fetch) originalButtonContent email.

(** The continuation once the fetch promise settles. *)
Definition submit_finish (en : env) (u : ui) (originalButtonContent : string)
    (email : jsstr) (r : fetch_result) : ui :=
  match r with
  | Response true =>
      let u1 := emit (show_success (hide_form u)) (Announce msg_success) in
      let u2 := if negb (reduced_motion en) then emit u1 Confetti else u1 in
      emits u2 (trackEvent en "waitlist_signup" (signup_data email))
  | _ =>
      let u1 := emit u (ConsoleError "Form submission error:") in
      let u2 := set_btn u1
                  (mkButton false (Some "false"%string) originalButtonContent) in
      emit u2 (Announce msg_error)
  end.

Definition handleFormSubmit (en : env) (u : ui) (value : jsstr)
    (r : fetch_result) : ui :=
  match submit_start u value with
  | Done u' => u'
  | Pending u' orig email => submit_finish en u' orig email r
  end.

(** A run of the page: a sequence of submit events, each with the value of
    the email field and the outcome of its network request. *)
Fixpoint run (en : env) (u : ui) (evs : list (jsstr * fetch_result)) : ui :=
  match evs with
  | [] => u
  | (v, r) :: evs' => run en (handleFormSubmit en u v r) evs'
  end.

(** The page as seen by initWaitlistForm: the elements found by id and the
    registered event listeners (element, event type). *)
Record page := mkPage {
  waitlistForm : option nat;
  waitlistSuccess : option nat;
  listeners : list (nat * string)
}.

(** An initializer returns the new page and the exception it threw, if any. *)
Definition initWaitlistForm (p : page) : page * option string :=
  match waitlistForm p, waitlistSuccess p with
  | Some form, Some _ =>
      (mkPage (waitlistForm p) (waitlistSuccess p)
              (listeners p ++ [(form, "submit"%string)]), None)
  | _, _ => (p, None)
  end.

End Waitlist.

(** ** Bootstrap (init, lines 20-31) *)
Module Bootstrap.

Definition initializer (St : Type) := St -> St * option string.

Record boot (St : Type) := mkBoot {
  final : St;
  invoked : list string;         (* initializers entered, in order *)
  console : list string          (* console.error output *)
}.
Arguments final {St}.
Arguments invoked {St}.
Arguments console {St}.

(** The body of the [try] block: the initializers in sequence; the first
    exception aborts the block. *)
Fixpoint run_inits {St} (fs : list (string * initializer St)) (s : St)
    (inv : list string) : St * list string * option string :=
  match fs with
  | [] => (s, inv, None)
  | (name, f) :: fs' =>
      let (s', err) := f s in
      match err with
      | Some e => (s', inv ++ [name], Some e)
      | None => run_inits fs' s' (inv ++ [name])
      end
  end.

Definition init {St} (fs : list (string * initializer St)) (s : St) : boot St :=
  let '(s', inv, err) := run_inits fs s [] in
  mkBoot St s' inv
    (match err with
     | Some e => [("Vector FX: Initialization error " ++ e)%string]
     | None => []
     end).

Definition bootstrap_order : list string :=
  ["initScrollAnimations"; "initWaitlistForm"; "initSmoothScroll";
   "initNavbarScroll"; "initCurrentYear"; "initKeyboardNavigation"]%string.

End Bootstrap.

(** ** Scroll reveal (initScrollAnimations, lines 37-77) *)
Module ScrollReveal.

Record element := mkEl {
  classes : list string;
  opacity : option string;       (* el.style.opacity *)
  transform : option string      (* el.style.transform *)
}.

Definition has_class (c : string) (e : element) : bool :=
  existsb (String.eqb c) (classes e).

(** '.problem-item, .feature-card, .method-item, .audience-card, .comparison-col' *)
Definition target_classes : list string :=
  ["problem-item"; "feature-card"; "method-item"; "audience-card";
   "comparison-col"]%string.

Definition is_target (e : element) : bool :=
  existsb (fun c => has_class c e) target_classes.

(** classList.add: appends the class unless already present. *)
Definition add_class (c : string) (e : element) : element :=
  if has_class c e then e else mkEl (classes e ++ [c]) (opacity e) (transform e).

Definition show_now (e : element) : element :=
  mkEl (classes e) (Some "1"%string) (Some "none"%string).

(** Positions of the target elements, in document order. *)
Fixpoint target_positions (doc : list element) (i : nat) : list nat :=
  match doc with
  | [] => []
  | e :: doc' =>
      if is_target e then i :: target_positions doc' (S i)
      else target_positions doc' (S i)
  end.

(** Returns the updated document and the elements passed to
    observer.observe, by position. *)
Definition initScrollAnimations (io_supported : bool) (doc : list element)
  : list element * list nat :=
  if negb io_supported then
    (map (fun e => if has_class "animate-on-scroll" e then show_now e else e) doc,
     [])
  else
    (map (fun e => if is_target e then add_class "animate-on-scroll" e else e) doc,
     target_positions doc 0).

(** An IntersectionObserverEntry. *)
Record entry := mkEntry {
  target : nat;
  isIntersecting : bool
}.

(** The observer callback: entries.forEach((entry, index) => ...).
    Returns the scheduled timeouts (delay, element to mark 'visible') and
    the elements unobserved. *)
Fixpoint observer_cb_from (entries : list entry) (index : nat)
  : list (Z * nat) * list nat :=
  match entries with
  | [] => ([], [])
  | en :: rest =>
      let '(ts, us) := observer_cb_from rest (S index) in
      if isIntersecting en then
        ((Z.min (Z.of_nat index * 100) 500, target en) :: ts, target en :: us)
      else (ts, us)
  end.

Definition observer_cb (entries : list entry) : list (Z * nat) * list nat :=
  observer_cb_from entries 0.

End ScrollReveal.

(** ** Confetti (createConfetti, lines 208-241)

    Math.random() draws are modelled as exact rationals in [0, 1); the
    arithmetic on them is exact rational arithmetic. *)
Module Confetti.

Open Scope Q_scope.

Record cstyle := mkStyle {
  width : Q;                     (* px *)
  height : Q;                    (* px *)
  background : string;
  left_vw : Q;
  top : string;
  c_opacity : Q;
  border_radius : string;
  pointer_events : string;
  z_index : Z;
  anim_name : string;
  anim_duration : Q              (* s *)
}.

Record node := mkNode {
  node_id : nat;
  style : option cstyle;
  aria_hidden : option string
}.

Inductive timer_action := CleanupConfetti.

Record world := mkWorld {
  body : list node;
  next_id : nat;
  draws : nat;                   (* Math.random() values used so far *)
  now : Z;                       (* ms *)
  timers : list (Z * timer_action)
}.

Definition colors : list string :=
  ["#10b981"; "#34d399"; "#6ee7b7"; "#ffffff"]%string.

Section WithRandom.

(** The k-th value returned by Math.random(). *)
Variable random : nat -> Q.

(** One loop iteration; the six draws in source order: size, duration,
    colour, left, opacity, border radius. *)
Definition mk_confetti (id k : nat) : node :=
  let size := random k * 10 + 5 in
  let duration := random (k + 1) * 2 + 2 in
  mkNode id
    (Some (mkStyle size size
             (nth (Z.to_nat (Qfloor (random (k + 2) * 4))) colors ""%string)
             (random (k + 3) * 100)
             "-20px"%string
             (random (k + 4) * (7 # 10) + (3 # 10))
             (if Qle_bool (random (k + 5)) (1 # 2) then "0"%string
              else "50%"%string)
             "none"%string
             9999%Z
             "confettiFall"%string
             duration))
    (Some "true"%string).

Fixpoint spawn (n id k : nat) : list node :=
  match n with
  | O => []
  | S n' => mk_confetti id k :: spawn n' (S id) (k + 6)
  end.

Definition confettiCount : nat := 50.

Definition createConfetti (w : world) : world :=
  mkWorld (body w ++ spawn confettiCount (next_id w) (draws w))
          (next_id w + confettiCount)
          (draws w + 6 * confettiCount)
          (now w)
          (timers w ++ [((now w + 4000)%Z, CleanupConfetti)]).

(** [style*="confettiFall"] *)
Definition mentions_confetti (n : node) : bool :=
  match style n with
  | Some s => String.eqb (anim_name s) "confettiFall"
  | None => false
  end.

Definition fire (a : timer_action) (w : world) : world :=
  match a with
  | CleanupConfetti =>
      mkWorld (filter (fun n => negb (mentions_confetti n)) (body w))
              (next_id w) (draws w) (now w) (timers w)
  end.

(** Let time pass until [t]: every timer due by then fires. *)
Definition advance (t : Z) (w : world) : world :=
  let due := filter (fun '(d, _) => (d <=? t)%Z) (timers w) in
  let pending := filter (fun '(d, _) => negb (d <=? t)%Z) (timers w) in
  fold_left (fun w' '(_, a) => fire a w') due
            (mkWorld (body w) (next_id w) (draws w) t pending).

End WithRandom.

End Confetti.

(** ** Feedback helpers (shakeElement, lines 165-175;
    announceToScreenReader, lines 338-349) *)
Module Feedback.

(** The inline state of the email field touched by shakeElement. *)
Record field := mkField {
  f_animation : string;          (* element.style.animation *)
  f_borderColor : string;        (* element.style.borderColor *)
  f_aria_invalid : option string (* aria-invalid attribute *)
}.

(** Children of document.body: announcements and other nodes. *)
Inductive node :=
| OtherNode (id : nat)
| StatusNode (id : nat) (role aria_live aria_atomic className textContent : string).

Definition node_id (n : node) : nat :=
  match n with OtherNode id => id | StatusNode id _ _ _ _ _ => id end.

Inductive action :=
| RevertShake                    (* the 500 ms callback of shakeElement *)
| RemoveNode (id : nat).         (* the 1000 ms callback: announcement.remove() *)

Record world := mkWorld {
  field_st : field;
  body : list node;
  next_id : nat;
  now : Z;
  timers : list (Z * action)
}.

Definition shakeElement (w : world) : world :=
  mkWorld (mkField "shake 0.5s ease" "#ef4444" (Some "true"%string))
          (body w) (next_id w) (now w)
          (timers w ++ [((now w + 500)%Z, RevertShake)]).

Definition announceToScreenReader (message : string) (w : world) : world :=
  mkWorld (field_st w)
          (body w ++ [StatusNode (next_id w) "status" "polite" "true"
                                 "visually-hidden" message])
          (S (next_id w)) (now w)
          (timers w ++ [((now w + 1000)%Z, RemoveNode (next_id w))]).

Definition fire (a : action) (w : world) : world :=
  match a with
  | RevertShake =>
      mkWorld (mkField "" "" (Some "false"%string)) (body w) (next_id w) (now w)
              (timers w)
  | RemoveNode id =>
      mkWorld (field_st w) (filter (fun n => negb (Nat.eqb (node_id n) id)) (body w))
              (next_id w) (now w) (timers w)
  end.

(** Let time pass until [t]: every timer due by then fires. *)
Definition advance (t : Z) (w : world) : world :=
  let due := filter (fun '(d, _) => (d <=? t)%Z) (timers w) in
  let pending := filter (fun '(d, _) => negb (d <=? t)%Z) (timers w) in
  fold_left (fun w' (da : Z * action) => fire (snd da) w') due
            (mkWorld (field_st w) (body w) (next_id w) t pending).

End Feedback.

(** ** Smooth scroll (initSmoothScroll, lines 246-278) *)
Module SmoothScroll.

Open Scope Q_scope.

(** Result of document.querySelector(targetId): the element's
    getBoundingClientRect().top, no match, or a SyntaxError for a string
    that is not a valid selector. *)
Inductive qs_result :=
| Found (rect_top : Q)
| NoMatch
| SelectorError.

Record click_env := mkClickEnv {
  querySelector : string -> qs_result;
  nav_offsetHeight : option Q;   (* the .nav element's offsetHeight, if any *)
  pageYOffset : Q;
  smooth_supported : bool        (* 'scrollBehavior' in documentElement.style *)
}.

Inductive effect :=
| PreventDefault
| ScrollSmooth (top : Q)         (* window.scrollTo({ top, behavior: 'smooth' }) *)
| ScrollJump (top : Q)           (* window.scrollTo(0, top) *)
| SetTabindex                    (* setAttribute('tabindex', '-1') *)
| FocusNoScroll.                 (* focus({ preventScroll: true }) *)

(** The effects of the click listener, and whether it threw. *)
Definition on_anchor_click (en : click_env) (targetId : string)
  : list effect * bool :=
  if String.eqb targetId "#" then ([], false)
  else
    match querySelector en targetId with
    | SelectorError => ([], true)
    | NoMatch => ([], false)
    | Found top =>
        let navHeight := match nav_offsetHeight en with Some h => h | None => 0 end in
        let targetPosition := top + pageYOffset en - navHeight - 20 in
        ([PreventDefault]
         ++ (if smooth_supported en then [ScrollSmooth targetPosition]
             else [ScrollJump targetPosition])
         ++ [SetTabindex; FocusNoScroll], false)
    end.

End SmoothScroll.

(** ** Navbar (initNavbarScroll, lines 283-310) *)
Module Navbar.

Open Scope Q_scope.

Record nav := mkNav {
  ticking : bool;
  queued : nat;                  (* updateNavbar callbacks awaiting a frame *)
  background : string;
  boxShadow : string
}.

Definition updateNavbar (scrollY : Q) (n : nav) : nav :=
  if negb (Qle_bool scrollY 100) then
    mkNav false (queued n) "rgba(10, 10, 15, 0.95)" "0 4px 30px rgba(0, 0, 0, 0.3)"
  else mkNav false (queued n) "rgba(10, 10, 15, 0.8)" "none".

(** The passive scroll listener. *)
Definition on_scroll (n : nav) : nav :=
  if negb (ticking n) then mkNav true (S (queued n)) (background n) (boxShadow n)
  else n.

(** An animation frame runs every callback queued before it, reading
    window.pageYOffset at that time. *)
Fixpoint run_queued (k : nat) (scrollY : Q) (n : nav) : nav :=
  match k with
  | O => n
  | S k' => run_queued k' scrollY (updateNavbar scrollY n)
  end.

Definition on_frame (scrollY : Q) (n : nav) : nav :=
  run_queued (queued n) scrollY (mkNav (ticking n) 0 (background n) (boxShadow n)).

Inductive nav_event :=
| ScrollEvent
| Frame (scrollY : Q).

Definition nav_step (n : nav) (e : nav_event) : nav :=
  match e with
  | ScrollEvent => on_scroll n
  | Frame y => on_frame y n
  end.

Definition nav_run (n : nav) (evs : list nav_event) : nav := fold_left nav_step evs n.

End Navbar.

(** ** Parallax (lines 375-399) *)
Module Parallax.

Open Scope Q_scope.

Record mouse := mkMouse { clientX : Q; clientY : Q }.
Record rect := mkRect { r_left : Q; r_top : Q; r_width : Q; r_height : Q }.

Record px := mkPx {
  raf : option mouse;            (* the event captured by the queued callback *)
  translate : option (Q * Q)     (* heroVisual.style.transform *)
}.

(** The IIFE's guard: large screens, no reduced motion, a .hero-visual. *)
Definition parallax_enabled (innerWidth : Z) (reducedMotion hasHero : bool) : bool :=
  negb ((innerWidth <? 1024)%Z || reducedMotion) && hasHero.

Definition on_mousemove (e : mouse) (s : px) : px :=
  match raf s with
  | Some _ => s
  | None => mkPx (Some e) (translate s)
  end.

(** The frame callback, reading the bounding rectangle at frame time. *)
Definition on_frame (r : rect) (s : px) : px :=
  match raf s with
  | None => s
  | Some e =>
      let centerX := r_left r + r_width r / 2 in
      let centerY := r_top r + r_height r / 2 in
      mkPx None (Some ((clientX e - centerX) / 50, (clientY e - centerY) / 50))
  end.

End Parallax.

(** ** Keyframes injection (lines 178-203)

    The ids of the elements of the document's head and of its body, each in
    document order.  getElementById looks in both; the style element is
    appended at the end of the head. *)
Record doc_ids := mkDocIds {
  head_ids : list string;
  body_ids : list string
}.

Definition injectAnimations (d : doc_ids) : doc_ids :=
  if existsb (String.eqb "vectorfx-animations") (head_ids d ++ body_ids d) then d
  else mkDocIds (head_ids d ++ ["vectorfx-animations"%string]) (body_ids d).

(** Effect classifiers for counting the log. *)
Module WaitlistCount.
Import Waitlist.

Definition is_fetch (e : effect) : bool :=
  match e with Fetch => true | _ => false end.

Definition is_announce (e : effect) : bool :=
  match e with Announce _ => true | _ => false end.

End WaitlistCount.

(** * Proofs *)

(** ** The derivative matcher decides the language *)
Module RegexFacts.

Ltac void_absurd :=
  match goal with H : lang Void _ |- _ => inversion H end.

Lemma lang_Cat_iff a b s :
  lang (Cat a b) s <-> exists s1 s2, s = s1 ++ s2 /\ lang a s1 /\ lang b s2.
Proof.
  split.
  - intro H; inversion H; subst; eauto.
  - intros (s1 & s2 & -> & H1 & H2); constructor; assumption.
Qed.

Lemma lang_Alt_iff a b s : lang (Alt a b) s <-> lang a s \/ lang b s.
Proof.
  split.
  - intro H; inversion H; subst; auto.
  - intros [H | H]; [apply L_altl | apply L_altr]; assumption.
Qed.

Lemma lang_Eps_iff s : lang Eps s <-> s = [].
Proof. split; [intro H; inversion H; reflexivity | intros ->; constructor]. Qed.

Lemma lang_Cls_iff rs s :
  lang (Cls rs) s <-> exists c, s = [c] /\ in_cls rs c = true.
Proof.
  split.
  - intro H; inversion H; subst; eauto.
  - intros (c & -> & Hc); constructor; assumption.
Qed.

Lemma lang_cat_iff a b s : lang (cat a b) s <-> lang (Cat a b) s.
Proof.
  rewrite lang_Cat_iff.
  destruct a; simpl.
  - split; [intro H; inversion H | intros (s1 & s2 & _ & H & _); inversion H].
  - split.
    + intro H; exists [], s; repeat split; [constructor | assumption].
    + intros (s1 & s2 & -> & H1 & H2); apply lang_Eps_iff in H1; subst; exact H2.
  - destruct b; rewrite ?lang_Cat_iff; try reflexivity;
      split; [intro H; inversion H | intros (s1 & s2 & _ & _ & H); inversion H].
  - destruct b; rewrite ?lang_Cat_iff; try reflexivity;
      split; [intro H; inversion H | intros (s1 & s2 & _ & _ & H); inversion H].
  - destruct b; rewrite ?lang_Cat_iff; try reflexivity;
      split; [intro H; inversion H | intros (s1 & s2 & _ & _ & H); inversion H].
  - destruct b; rewrite ?lang_Cat_iff; try reflexivity;
      split; [intro H; inversion H | intros (s1 & s2 & _ & _ & H); inversion H].
Qed.

Lemma lang_alt_iff a b s : lang (alt a b) s <-> lang a s \/ lang b s.
Proof.
  destruct a; simpl;
    [split; [auto | intros [H | H]; [inversion H | exact H]] | ..];
    (destruct b;
     [split; [auto | intros [H | H]; [exact H | inversion H]]
     | apply lang_Alt_iff ..]).
Qed.

Lemma nullable_iff r : nullable r = true <-> lang r [].
Proof.
  induction r as [| | rs | a IHa b IHb | a IHa b IHb | a IHa]; simpl.
  - split; [discriminate | intro H; inversion H].
  - split; [constructor | reflexivity].
  - split; [discriminate | intro H; inversion H].
  - rewrite andb_true_iff, IHa, IHb, lang_Cat_iff. split.
    + intros [H1 H2]; exists [], []; auto.
    + intros (s1 & s2 & Hs & H1 & H2).
      symmetry in Hs; apply app_eq_nil in Hs as [-> ->]; auto.
  - rewrite orb_true_iff, IHa, IHb, lang_Alt_iff; reflexivity.
  - split; [constructor | reflexivity].
Qed.

Lemma star_cons_split a :
  forall w, lang (Star a) w -> forall c s, w = c :: s ->
  exists s1 s2, s = s1 ++ s2 /\ lang a (c :: s1) /\ lang (Star a) s2.
Proof.
  intros w H. remember (Star a) as e eqn:He.
  induction H as [| | | | | r | r s1 s2 H1 _ H2 IH2]; intros c0 s0 Hw;
    try discriminate.
  injection He as ->.
  destruct s1 as [| c1 s1'].
  - simpl in Hw. apply (IH2 eq_refl c0 s0 Hw).
  - simpl in Hw. injection Hw as E1 E2; subst. exists s1', s2. auto.
Qed.

Lemma deriv_iff c r s : lang (deriv c r) s <-> lang r (c :: s).
Proof.
  revert s.
  induction r as [| | rs | a IHa b IHb | a IHa b IHb | a IHa]; intro s; simpl.
  - split; intro H; inversion H.
  - split; intro H; inversion H.
  - rewrite lang_Cls_iff. destruct (in_cls rs c) eqn:E.
    + rewrite lang_Eps_iff. split.
      * intros ->; eauto.
      * intros (c' & Hs & _); injection Hs as -> ->; reflexivity.
    + split; [intro H; inversion H |].
      intros (c' & Hs & Hc); injection Hs as -> ->; congruence.
  - rewrite lang_Cat_iff.
    destruct (nullable a) eqn:N.
    + rewrite lang_alt_iff, lang_cat_iff, lang_Cat_iff, IHb. split.
      * intros [(s1 & s2 & -> & H1 & H2) | H].
        -- exists (c :: s1), s2. rewrite <- IHa. auto.
        -- exists [], (c :: s). apply nullable_iff in N. auto.
      * intros (s1 & s2 & Hs & H1 & H2). destruct s1 as [| c1 s1'].
        -- right. simpl in Hs. subst. exact H2.
        -- left. simpl in Hs. injection Hs as E1 E2; subst.
           exists s1', s2. rewrite IHa. auto.
    + rewrite lang_cat_iff, lang_Cat_iff. split.
      * intros (s1 & s2 & -> & H1 & H2).
        exists (c :: s1), s2. rewrite <- IHa. auto.
      * intros (s1 & s2 & Hs & H1 & H2). destruct s1 as [| c1 s1'].
        -- apply nullable_iff in H1. congruence.
        -- simpl in Hs. injection Hs as E1 E2; subst.
           exists s1', s2. rewrite IHa. auto.
  - rewrite lang_alt_iff, lang_Alt_iff, IHa, IHb. reflexivity.
  - rewrite lang_cat_iff, lang_Cat_iff. split.
    + intros (s1 & s2 & -> & H1 & H2). rewrite IHa in H1.
      exact (L_star a (c :: s1) s2 H1 H2).
    + intro H. destruct (star_cons_split a _ H c s eq_refl)
        as (s1 & s2 & -> & H1 & H2).
      exists s1, s2. rewrite IHa. auto.
Qed.

Lemma matches_iff r s : matches r s = true <-> lang r s.
Proof.
  revert r. induction s as [| c s IH]; intro r; simpl.
  - apply nullable_iff.
  - rewrite IH. apply deriv_iff.
Qed.

End RegexFacts.

(** ** The language of the email pattern *)
Module EmailFacts.
Import RegexFacts.

Lemma star_cls_iff rs s :
  lang (Star (Cls rs)) s <-> Forall (fun c => in_cls rs c = true) s.
Proof.
  split.
  - intro H. remember (Star (Cls rs)) as e eqn:He.
    induction H as [| | | | | r | r s1 s2 H1 _ H2 IH2]; try discriminate.
    + constructor.
    + injection He as ->. apply lang_Cls_iff in H1 as (c & -> & Hc).
      simpl. constructor; [exact Hc | exact (IH2 eq_refl)].
  - induction 1 as [| c s Hc _ IH].
    + constructor.
    + exact (L_star _ [c] s (L_cls rs c Hc) IH).
Qed.

Lemma plus_cls_iff rs s :
  lang (Plus (Cls rs)) s <-> s <> [] /\ Forall (fun c => in_cls rs c = true) s.
Proof.
  unfold Plus. rewrite lang_Cat_iff. split.
  - intros (s1 & s2 & -> & H1 & H2).
    apply lang_Cls_iff in H1 as (c & -> & Hc). apply star_cls_iff in H2.
    split; [discriminate | constructor; assumption].
  - intros [Hne Hall]. destruct s as [| c s]; [congruence |].
    inversion Hall; subst. exists [c], s.
    rewrite lang_Cls_iff, star_cls_iff. eauto.
Qed.

Lemma upto_cls_iff n rs s :
  lang (UpTo n (Cls rs)) s
  <-> (List.length s <= n)%nat /\ Forall (fun c => in_cls rs c = true) s.
Proof.
  revert s. induction n as [| n IH]; intro s; simpl.
  - rewrite lang_Eps_iff. split.
    + intros ->; simpl; auto.
    + intros [Hl _]. destruct s; [reflexivity | simpl in Hl; lia].
  - rewrite lang_Alt_iff, lang_Eps_iff, lang_Cat_iff. split.
    + intros [-> | (s1 & s2 & -> & H1 & H2)]; [simpl; split; [lia | constructor] |].
      apply lang_Cls_iff in H1 as (c & -> & Hc). apply IH in H2 as [Hl Hall].
      simpl. split; [lia | constructor; assumption].
    + intros [Hl Hall]. destruct s as [| c s]; [left; reflexivity | right].
      inversion Hall; subst. exists [c], s. simpl in Hl.
      rewrite lang_Cls_iff, IH. split; [reflexivity | split; [eauto | split; [lia | assumption]]].
Qed.

Lemma alnum_ldh c : alnum c = true -> in_cls ldh_ranges c = true.
Proof.
  unfold alnum, in_cls.
  change ldh_ranges with (alnum_ranges ++ [ch "-"]).
  rewrite existsb_app. intros ->. reflexivity.
Qed.

Lemma label_iff l : lang label_re l <-> label_ok l = true.
Proof.
  unfold label_re, Opt, label_ok.
  rewrite lang_Cat_iff.
  repeat rewrite andb_true_iff. rewrite !Nat.leb_le, forallb_forall.
  split.
  - intros (s1 & s2 & -> & H1 & H2).
    apply lang_Cls_iff in H1 as (a & -> & Ha).
    apply lang_Alt_iff in H2 as [H2 | H2].
    + apply lang_Cat_iff in H2 as (u & s3 & -> & Hu & Hb).
      apply upto_cls_iff in Hu as [Hl Hall].
      apply lang_Cls_iff in Hb as (b & -> & Hb).
      rewrite Forall_forall in Hall.
      simpl app. rewrite app_comm_cons, last_last. simpl hd.
      rewrite length_app. simpl List.length.
      repeat split; try lia; try assumption.
      intros x Hx. rewrite <- app_comm_cons in Hx.
      destruct Hx as [<- | Hx]; [apply alnum_ldh; exact Ha |].
      apply in_app_or in Hx as [Hx | [<- | []]]; [apply Hall; exact Hx |].
      apply alnum_ldh; exact Hb.
    + apply lang_Eps_iff in H2 as ->. simpl.
      repeat split; try lia; try assumption.
      intros x [<- | []]. apply alnum_ldh; exact Ha.
  - intros [[[[Hl1 Hl2] Hall] Ha] Hb].
    destruct l as [| a t]; [simpl in Hl1; lia |].
    exists [a], t. split; [reflexivity |]. split.
    + apply lang_Cls_iff. eauto.
    + apply lang_Alt_iff. destruct t as [| c t]; [right; constructor |].
      left. destruct (exists_last (l := c :: t) ltac:(discriminate))
        as (u & b & Hu).
      rewrite Hu in *. apply lang_Cat_iff. exists u, [b].
      split; [reflexivity |]. split.
      * apply upto_cls_iff. split.
        -- simpl in Hl2. rewrite length_app in Hl2. simpl in Hl2. lia.
        -- apply Forall_forall. intros x Hx. apply Hall.
           right. apply in_or_app. left. exact Hx.
      * apply lang_Cls_iff. exists b. split; [reflexivity |].
        rewrite app_comm_cons, last_last in Hb. exact Hb.
Qed.

Lemma in_cls_single x c : in_cls [(x, x)] c = true -> c = x.
Proof.
  unfold in_cls; simpl. rewrite orb_false_r, andb_true_iff, !Z.leb_le. lia.
Qed.

Lemma star_labels_iff q :
  lang (Star (Cat (Cls [ch "."]) label_re)) q
  <-> exists ls, q = List.concat (map (cons (cu ".")) ls)
                 /\ Forall (fun l => label_ok l = true) ls.
Proof.
  split.
  - intro H. remember (Star (Cat (Cls [ch "."]) label_re)) as e eqn:He.
    induction H as [| | | | | r | r s1 s2 H1 _ H2 IH2]; try discriminate.
    + exists []. split; [reflexivity | constructor].
    + injection He as ->. destruct (IH2 eq_refl) as (ls & -> & Hls).
      apply lang_Cat_iff in H1 as (d & l & -> & Hd & Hl).
      apply lang_Cls_iff in Hd as (c & -> & Hc). apply in_cls_single in Hc as ->.
      apply label_iff in Hl.
      exists (l :: ls). split; [reflexivity | constructor; assumption].
  - intros (ls & -> & Hls). induction Hls as [| l ls Hl _ IH]; [constructor |].
    simpl. refine (L_star _ (cu "." :: l) _ _ IH).
    change (cu "." :: l) with ([cu "."] ++ l).
    constructor; [constructor; reflexivity | apply label_iff; exact Hl].
Qed.

Lemma join_cons sep l ls : join sep (l :: ls) = l ++ List.concat (map (cons sep) ls).
Proof.
  revert l. induction ls as [| l' ls IH]; intro l.
  - simpl. rewrite app_nil_r. reflexivity.
  - change (join sep (l :: l' :: ls)) with (l ++ sep :: join sep (l' :: ls)).
    rewrite IH. reflexivity.
Qed.

Lemma email_lang_iff s :
  lang emailRegex s
  <-> exists local labels,
        s = local ++ cu "@" :: join (cu ".") labels
        /\ local <> []
        /\ Forall (fun c => in_cls local_ranges c = true) local
        /\ labels <> []
        /\ Forall (fun l => label_ok l = true) labels.
Proof.
  unfold emailRegex. rewrite lang_Cat_iff. split.
  - intros (s1 & s2 & -> & H1 & H2).
    apply plus_cls_iff in H1 as [Hne Hall].
    apply lang_Cat_iff in H2 as (s3 & s4 & -> & H3 & H4).
    apply lang_Cls_iff in H3 as (c & -> & Hc). apply in_cls_single in Hc as ->.
    apply lang_Cat_iff in H4 as (l0 & q & -> & Hl0 & Hq).
    apply star_labels_iff in Hq as (ls & -> & Hls).
    exists s1, (l0 :: ls). rewrite join_cons.
    repeat split; try assumption; [discriminate |].
    constructor; [apply label_iff; exact Hl0 | exact Hls].
  - intros (local & labels & -> & Hne & Hall & Hlne & Hls).
    destruct labels as [| l0 ls]; [congruence |].
    inversion Hls; subst. rewrite join_cons.
    exists local, (cu "@" :: l0 ++ List.concat (map (cons (cu ".")) ls)).
    split; [reflexivity |]. split; [apply plus_cls_iff; auto |].
    apply lang_Cat_iff. exists [cu "@"], (l0 ++ List.concat (map (cons (cu ".")) ls)).
    split; [reflexivity |]. split; [constructor; reflexivity |].
    apply lang_Cat_iff. exists l0, (List.concat (map (cons (cu ".")) ls)).
    split; [reflexivity |]. split; [apply label_iff; assumption |].
    apply star_labels_iff. eauto.
Qed.

(** The validator accepts exactly the addresses of the specified shape. *)
Lemma isValidEmail_iff s : isValidEmail s = true <-> email_shape s.
Proof.
  unfold isValidEmail, email_shape.
  rewrite andb_true_iff, matches_iff, email_lang_iff, Z.leb_le.
  split.
  - intros [(local & labels & Hs & H1 & H2 & H3 & H4) Hl].
    exists local, labels. repeat split; try assumption; lia.
  - intros (local & labels & Hs & H1 & H2 & H3 & H4 & Hl).
    split; [exists local, labels; auto | lia].
Qed.

End EmailFacts.

(** ** C1: the email validator *)
Module EmailClaims.
Import RegexFacts EmailFacts.

(** C1. For every string S, isValidEmail S is true iff S has the shape
    local-part@domain, the domain a dot-separated sequence of labels of 1 to
    63 letters, digits and inner hyphens, and S is at most 254 characters
    long; "a@b.co" is accepted, "not-an-email" rejected, and a 255-character
    address of that shape rejected. *)
Theorem isValidEmail_correct :
  (forall s, isValidEmail s = true <-> email_shape s)
  /\ isValidEmail (js "a@b.co") = true
  /\ isValidEmail (js "not-an-email") = false
  /\ (List.length long255 = 255%nat /\ matches emailRegex long255 = true
      /\ isValidEmail long255 = false)
  /\ (forall s, (254 < List.length s)%nat -> isValidEmail s = false).
Proof.
  split; [exact isValidEmail_iff |].
  split; [vm_compute; reflexivity |].
  split; [vm_compute; reflexivity |].
  split; [split; [reflexivity | split; vm_compute; reflexivity] |].
  intros s Hs. unfold isValidEmail.
  replace (Z.of_nat (List.length s) <=? 254)%Z with false
    by (symmetry; apply Z.leb_gt; lia).
  apply andb_false_r.
Qed.

End EmailClaims.

(** ** The waitlist form *)
Module WaitlistFacts.
Import EmailFacts Waitlist.

Lemma isValidEmail_nil : isValidEmail [] = false.
Proof. vm_compute. reflexivity. Qed.

Lemma valid_nonempty s : isValidEmail s = true -> s <> [].
Proof. intros H ->. rewrite isValidEmail_nil in H. discriminate. Qed.

Lemma submit_start_valid u v :
  isValidEmail (trim v) = true ->
  submit_start u v
  = Pending (mkUi (mkButton true (Some "true"%string) joining_html)
                  (form_display u) (success_show u) (log u ++ [Fetch]))
            (innerHTML (btn u)) (trim v).
Proof.
  intro H. unfold submit_start.
  destruct (trim v) as [| c t] eqn:E; [rewrite isValidEmail_nil in H; discriminate |].
  rewrite H. reflexivity.
Qed.

Lemma split_on_app sep a b :
  ~ In sep a -> split_on sep (a ++ sep :: b) = a :: split_on sep b.
Proof.
  induction a as [| c a IH]; intro Hn; simpl.
  - rewrite Z.eqb_refl. reflexivity.
  - destruct (Z.eqb_spec c sep) as [-> | Hne]; [exfalso; apply Hn; left; reflexivity |].
    rewrite IH; [reflexivity | intro Hin; apply Hn; right; exact Hin].
Qed.

Lemma split_on_noin sep a : ~ In sep a -> split_on sep a = [a].
Proof.
  induction a as [| c a IH]; intro Hn; simpl; [reflexivity |].
  destruct (Z.eqb_spec c sep) as [-> | Hne]; [exfalso; apply Hn; left; reflexivity |].
  rewrite IH; [reflexivity | intro Hin; apply Hn; right; exact Hin].
Qed.

Lemma in_join x sep ls :
  In x (join sep ls) -> x = sep \/ exists l, In l ls /\ In x l.
Proof.
  induction ls as [| l ls IH]; simpl; [intros [] |].
  destruct ls as [| l' ls'].
  - intro Hx. right. exists l. simpl. auto.
  - intro Hx. apply in_app_or in Hx as [Hx | [-> | Hx]].
    + right. exists l. simpl. auto.
    + left. reflexivity.
    + destruct (IH Hx) as [-> | (l0 & Hl0 & Hx0)]; [left; reflexivity |].
      right. exists l0. simpl in *. tauto.
Qed.

(** A valid address has exactly one '@': after a non-empty local part. *)
Lemma valid_email_parts s :
  isValidEmail s = true ->
  exists local domain,
    s = local ++ cu "@" :: domain /\ local <> []
    /\ ~ In (cu "@") local /\ ~ In (cu "@") domain.
Proof.
  intro H. apply isValidEmail_iff in H
    as (local & labels & Hs & Hne & Hloc & _ & Hls & _).
  exists local, (join (cu ".") labels). split; [exact Hs |]. split; [exact Hne |].
  split.
  - intro Hin. rewrite Forall_forall in Hloc. specialize (Hloc _ Hin).
    vm_compute in Hloc. discriminate.
  - intro Hin. apply in_join in Hin as [E | (l & Hl & Hx)]; [vm_compute in E; discriminate |].
    rewrite Forall_forall in Hls. specialize (Hls l Hl).
    unfold label_ok in Hls. rewrite !andb_true_iff in Hls.
    destruct Hls as [[[[_ _] Hall] _] _].
    rewrite forallb_forall in Hall. specialize (Hall _ Hx).
    vm_compute in Hall. discriminate.
Qed.

Lemma handle_no_confetti en u v r :
  reduced_motion en = true ->
  exists es, log (handleFormSubmit en u v r) = log u ++ es /\ ~ In Confetti es.
Proof.
  intro Hr. unfold handleFormSubmit, submit_start.
  destruct ((match trim v with [] => true | _ => false end)
            || negb (isValidEmail (trim v)))%bool.
  - exists [Shake; FocusEmail; Announce msg_invalid]. simpl.
    rewrite <- !app_assoc. split; [reflexivity |]. simpl. intuition discriminate.
  - unfold submit_finish. destruct r as [| [|]]; simpl.
    + eexists. rewrite <- !app_assoc. split; [reflexivity |].
      simpl. intuition discriminate.
    + rewrite Hr. simpl. eexists. rewrite <- !app_assoc. split; [reflexivity |].
      simpl. unfold trackEvent.
      destruct (gtag_defined en), (_ || _)%bool; simpl; intuition discriminate.
    + eexists. rewrite <- !app_assoc. split; [reflexivity |].
      simpl. intuition discriminate.
Qed.

End WaitlistFacts.

(** ** C2, C4, C6, C7, C10: the waitlist form *)
Module WaitlistClaims.
Import EmailFacts Waitlist WaitlistFacts.

(** C2. When the trimmed email value is empty or rejected by isValidEmail,
    the submit handler makes no network request: it shakes the field,
    focuses it and announces the error, and leaves the button, the form and
    the success panel exactly as they were (an idle form stays idle and
    enabled). *)
Theorem invalid_submit_no_fetch en u v r :
  trim v = [] \/ isValidEmail (trim v) = false ->
  handleFormSubmit en u v r
  = mkUi (btn u) (form_display u) (success_show u)
         (log u ++ [Shake; FocusEmail; Announce msg_invalid]).
Proof.
  intro H.
  assert (Hc : ((match trim v with [] => true | _ => false end)
                || negb (isValidEmail (trim v)))%bool = true)
    by (destruct H as [-> | ->]; [reflexivity | apply orb_true_r]).
  unfold handleFormSubmit, submit_start. cbv zeta. rewrite Hc.
  unfold emit. simpl. rewrite <- !app_assoc. reflexivity.
Qed.

(** C4. When a submission with a valid email fails (the fetch rejects or
    the response is not ok), the handler re-enables the button, sets
    aria-busy to "false", restores its original content, logs the error and
    announces it; the form's display and the success panel are unchanged
    and exactly one request was made (no retry). *)
Theorem failed_submit_restores en u v r :
  isValidEmail (trim v) = true ->
  r = NetworkError \/ r = Response false ->
  handleFormSubmit en u v r
  = mkUi (mkButton false (Some "false"%string) (innerHTML (btn u)))
         (form_display u) (success_show u)
         (log u ++ [Fetch; ConsoleError "Form submission error:";
                    Announce msg_error]).
Proof.
  intros Hv Hr. unfold handleFormSubmit. rewrite (submit_start_valid u v Hv).
  destruct Hr as [-> | ->]; unfold submit_finish, emit, set_btn; simpl;
    rewrite <- !app_assoc; reflexivity.
Qed.

(** C6. When the user prefers reduced motion, no run of submit events ever
    invokes createConfetti. *)
Theorem reduced_motion_no_confetti en u evs :
  reduced_motion en = true ->
  ~ In Confetti (log u) -> ~ In Confetti (log (run en u evs)).
Proof.
  intros Hr. revert u. induction evs as [| [v r] evs IH]; intros u Hu; simpl.
  - exact Hu.
  - apply IH. destruct (handle_no_confetti en u v r Hr) as (es & -> & Hes).
    intro Hin. apply in_app_or in Hin as [Hin | Hin]; contradiction.
Qed.

(** C7. On a successful submission the analytics data is
    { email_domain: d } where d is the part of the (trimmed, validated)
    address after its only '@': shorter than the address, and the non-empty
    local part before the '@' is not passed on. *)
Theorem signup_analytics_domain_only en u v :
  isValidEmail (trim v) = true ->
  exists local domain,
    trim v = local ++ cu "@" :: domain
    /\ local <> [] /\ ~ In (cu "@") local
    /\ signup_data (trim v) = [("email_domain"%string, Some domain)]
    /\ (List.length domain < List.length (trim v))%nat
    /\ log (handleFormSubmit en u v (Response true))
       = log u ++ [Fetch; Announce msg_success]
           ++ (if reduced_motion en then [] else [Confetti])
           ++ trackEvent en "waitlist_signup"
                [("email_domain"%string, Some domain)].
Proof.
  intro Hv.
  destruct (valid_email_parts _ Hv) as (local & domain & Hs & Hne & Hl & Hd).
  assert (Hdata : signup_data (trim v) = [("email_domain"%string, Some domain)]).
  { unfold signup_data. rewrite Hs, split_on_app, split_on_noin by assumption.
    reflexivity. }
  exists local, domain. repeat split; try assumption.
  - rewrite Hs, length_app. simpl. destruct local; [congruence |]. simpl. lia.
  - unfold handleFormSubmit. rewrite (submit_start_valid u v Hv). simpl.
    rewrite Hdata. destruct (reduced_motion en); simpl;
      rewrite <- !app_assoc; reflexivity.
Qed.

(** C10. When the element 'waitlistForm' or 'waitlistSuccess' is missing,
    initWaitlistForm changes nothing, registers no listener and throws no
    exception. *)
Theorem initWaitlistForm_missing p :
  waitlistForm p = None \/ waitlistSuccess p = None ->
  initWaitlistForm p = (p, None).
Proof.
  intro H. unfold initWaitlistForm.
  destruct H as [-> | ->]; [reflexivity | destruct (waitlistForm p); reflexivity].
Qed.

Lemma invalid_submit_no_fetch_witness :
  (trim (js "not-an-email") = [] \/ isValidEmail (trim (js "not-an-email")) = false)
  /\ handleFormSubmit (mkEnv false false "example.com")
       (mkUi (mkButton false None "Join") None false []) (js "not-an-email")
       NetworkError
     = mkUi (mkButton false None "Join") None false
         ([] ++ [Shake; FocusEmail; Announce msg_invalid]).
Proof.
  assert (H : trim (js "not-an-email") = []
              \/ isValidEmail (trim (js "not-an-email")) = false)
    by (right; vm_compute; reflexivity).
  split; [exact H |].
  apply (invalid_submit_no_fetch (mkEnv false false "example.com")
           (mkUi (mkButton false None "Join") None false []) (js "not-an-email")
           NetworkError H).
Defined.

Lemma failed_submit_restores_witness :
  isValidEmail (trim (js " a@b.co ")) = true
  /\ (Response false = NetworkError \/ Response false = Response false)
  /\ handleFormSubmit (mkEnv false true "localhost")
       (mkUi (mkButton false None "Join") None false []) (js " a@b.co ")
       (Response false)
     = mkUi (mkButton false (Some "false"%string) "Join") None false
         ([] ++ [Fetch; ConsoleError "Form submission error:"; Announce msg_error]).
Proof.
  assert (H : isValidEmail (trim (js " a@b.co ")) = true)
    by (vm_compute; reflexivity).
  split; [exact H |]. split; [right; reflexivity |].
  apply (failed_submit_restores (mkEnv false true "localhost")
           (mkUi (mkButton false None "Join") None false []) (js " a@b.co ")
           (Response false) H); right; reflexivity.
Defined.

Lemma reduced_motion_no_confetti_witness :
  reduced_motion (mkEnv true true "localhost") = true
  /\ ~ In Confetti []
  /\ ~ In Confetti (log (run (mkEnv true true "localhost")
                            (mkUi (mkButton false None "Join") None false [])
                            [(js "a@b.co", Response true)])).
Proof.
  assert (H1 : reduced_motion (mkEnv true true "localhost") = true) by reflexivity.
  assert (H2 : ~ In Confetti []) by (intros []).
  split; [exact H1 |]. split; [exact H2 |].
  exact (reduced_motion_no_confetti (mkEnv true true "localhost")
           (mkUi (mkButton false None "Join") None false [])
           [(js "a@b.co", Response true)] H1 H2).
Defined.

Lemma signup_analytics_domain_only_witness :
  isValidEmail (trim (js "a@b.co")) = true
  /\ exists local domain,
    trim (js "a@b.co") = local ++ cu "@" :: domain
    /\ local <> [] /\ ~ In (cu "@") local
    /\ signup_data (trim (js "a@b.co")) = [("email_domain"%string, Some domain)]
    /\ (List.length domain < List.length (trim (js "a@b.co")))%nat
    /\ log (handleFormSubmit (mkEnv false true "localhost")
              (mkUi (mkButton false None "Join") None false []) (js "a@b.co")
              (Response true))
       = [] ++ [Fetch; Announce msg_success]
           ++ (if reduced_motion (mkEnv false true "localhost") then [] else [Confetti])
           ++ trackEvent (mkEnv false true "localhost") "waitlist_signup"
                [("email_domain"%string, Some domain)].
Proof.
  assert (H : isValidEmail (trim (js "a@b.co")) = true) by (vm_compute; reflexivity).
  split; [exact H |].
  exact (signup_analytics_domain_only (mkEnv false true "localhost")
           (mkUi (mkButton false None "Join") None false []) (js "a@b.co") H).
Defined.

Lemma initWaitlistForm_missing_witness :
  (waitlistForm (mkPage None (Some 1%nat) []) = None
   \/ waitlistSuccess (mkPage None (Some 1%nat) []) = None)
  /\ initWaitlistForm (mkPage None (Some 1%nat) []) = (mkPage None (Some 1%nat) [], None).
Proof.
  assert (H : waitlistForm (mkPage None (Some 1%nat) []) = None
              \/ waitlistSuccess (mkPage None (Some 1%nat) []) = None)
    by (left; reflexivity).
  split; [exact H |].
  exact (initWaitlistForm_missing (mkPage None (Some 1%nat) []) H).
Defined.

End WaitlistClaims.

(** ** C3: the bootstrap *)
Module BootstrapFacts.
Import Bootstrap.

Lemma run_inits_acc {St} (fs : list (string * initializer St)) s inv :
  run_inits fs s inv = let '(s', l, e) := run_inits fs s [] in (s', inv ++ l, e).
Proof.
  revert s inv. induction fs as [| [name f] fs IH]; intros s inv; simpl.
  - rewrite app_nil_r. reflexivity.
  - destruct (f s) as [s1 [e |]]; [reflexivity |].
    rewrite (IH s1 (inv ++ [name])), (IH s1 [name]).
    destruct (run_inits fs s1 []) as [[a l] e]. rewrite app_assoc. reflexivity.
Qed.

Lemma run_inits_app {St} (pre fs : list (string * initializer St)) s inv :
  run_inits (pre ++ fs) s inv
  = match run_inits pre s inv with
    | (s', inv', None) => run_inits fs s' inv'
    | r => r
    end.
Proof.
  revert s inv. induction pre as [| [name f] pre IH]; intros s inv; simpl.
  - reflexivity.
  - destruct (f s) as [s1 [e |]]; [reflexivity | apply IH].
Qed.

End BootstrapFacts.

Module BootstrapClaims.
Import Bootstrap BootstrapFacts.

(** C3 (as the code has it). init runs the initializers in order inside a
    single try block: when one throws, its error is caught and logged once,
    the initializers before it have run, and none after it is invoked. *)
Theorem init_aborts_on_first_throw {St} (pre : list (string * initializer St))
    name f rest s s' e :
  run_inits pre s [] = (s', map fst pre, None) ->
  snd (f s') = Some e ->
  invoked (init (pre ++ (name, f) :: rest) s) = map fst pre ++ [name]
  /\ console (init (pre ++ (name, f) :: rest) s)
     = [("Vector FX: Initialization error " ++ e)%string]
  /\ final (init (pre ++ (name, f) :: rest) s) = fst (f s').
Proof.
  intros Hpre Hf. unfold init. rewrite run_inits_app, Hpre. simpl.
  destruct (f s') as [s'' [e' |]]; simpl in Hf; [| discriminate].
  injection Hf as ->. auto.
Qed.

(** C3 fails as stated: when initScrollAnimations throws, initWaitlistForm
    and the four initializers after it never run. *)
Lemma init_throw_blocks_rest :
  let fs := ("initScrollAnimations"%string, fun s : unit => (s, Some "boom"%string))
            :: map (fun n => (n, fun s : unit => (s, None))) (tl bootstrap_order) in
  map fst fs = bootstrap_order
  /\ invoked (init fs tt) = ["initScrollAnimations"%string]
  /\ ~ In "initWaitlistForm"%string (invoked (init fs tt)).
Proof.
  simpl. split; [reflexivity |]. split; [reflexivity |].
  intros [H | []]. discriminate.
Qed.

Lemma init_aborts_on_first_throw_witness :
  let ok : initializer nat := fun s => (S s, None) in
  let boom : initializer nat := fun s => ((s + 10)%nat, Some "boom"%string) in
  let pre := [("initScrollAnimations"%string, ok); ("initWaitlistForm"%string, ok)] in
  let rest := [("initNavbarScroll"%string,
                (fun s => ((s + 100)%nat, None)) : initializer nat)] in
  (run_inits pre 0%nat [] = (2%nat, map fst pre, None)
   /\ snd (boom 2%nat) = Some "boom"%string)
  /\ invoked (init (pre ++ ("initSmoothScroll"%string, boom) :: rest) 0%nat)
     = map fst pre ++ ["initSmoothScroll"%string]
  /\ console (init (pre ++ ("initSmoothScroll"%string, boom) :: rest) 0%nat)
     = [("Vector FX: Initialization error " ++ "boom")%string]
  /\ final (init (pre ++ ("initSmoothScroll"%string, boom) :: rest) 0%nat)
     = fst (boom 2%nat).
Proof.
  intros ok boom pre rest.
  assert (H1 : run_inits pre 0%nat [] = (2%nat, map fst pre, None)) by reflexivity.
  assert (H2 : snd (boom 2%nat) = Some "boom"%string) by reflexivity.
  split; [split; [exact H1 | exact H2] |].
  exact (init_aborts_on_first_throw pre "initSmoothScroll"%string boom rest
           0%nat 2%nat "boom"%string H1 H2).
Defined.

End BootstrapClaims.

(** ** C5, C9: scroll reveal *)
Module ScrollFacts.
Import ScrollReveal.

Lemma observer_cb_from_spec entries j d t :
  In (d, t) (fst (observer_cb_from entries j))
  <-> exists i en, nth_error entries i = Some en /\ isIntersecting en = true
                   /\ target en = t
                   /\ d = Z.min (Z.of_nat (j + i) * 100) 500.
Proof.
  revert j. induction entries as [| en rest IH]; intro j; simpl.
  - split; [intros [] | intros (i & en & Hi & _); destruct i; discriminate].
  - specialize (IH (S j)).
    destruct (observer_cb_from rest (S j)) as [ts us]. simpl in IH.
    destruct (isIntersecting en) eqn:Ei; simpl.
    + split.
      * intros [Heq | Hin].
        -- injection Heq as <- <-. exists 0%nat, en.
           rewrite Nat.add_0_r. auto.
        -- apply IH in Hin as (i & en' & Hi & H1 & H2 & H3).
           exists (S i), en'. rewrite H3, Nat.add_succ_r. auto.
      * intros (i & en' & Hi & H1 & H2 & H3). destruct i as [| i].
        -- left. simpl in Hi. injection Hi as <-. rewrite H2, H3, Nat.add_0_r.
           reflexivity.
        -- right. apply IH. exists i, en'. rewrite H3, Nat.add_succ_r. auto.
    + rewrite IH. split.
      * intros (i & en' & Hi & H1 & H2 & H3).
        exists (S i), en'. rewrite H3, Nat.add_succ_r. auto.
      * intros (i & en' & Hi & H1 & H2 & H3). destruct i as [| i].
        -- simpl in Hi. injection Hi as <-. congruence.
        -- exists i, en'. rewrite H3, Nat.add_succ_r. auto.
Qed.

End ScrollFacts.

Module ScrollClaims.
Import ScrollReveal ScrollFacts.

(** C5 (as the code has it). In one batch of entries, setTimeout is
    scheduled for an element exactly when it is the target of an
    intersecting entry at some position i of the whole batch (entries that
    are not intersecting count too), with delay min(i*100, 500) ms. *)
Theorem observer_delay_by_batch_position entries d t :
  In (d, t) (fst (observer_cb entries))
  <-> exists i en, nth_error entries i = Some en /\ isIntersecting en = true
                   /\ target en = t
                   /\ d = Z.min (Z.of_nat i * 100) 500.
Proof. apply observer_cb_from_spec. Qed.

(** C5 fails as stated: in a batch whose first entry is not intersecting,
    the first newly intersecting element waits 100 ms, not min(0*100, 500). *)
Lemma observer_delay_counts_all_entries :
  fst (observer_cb [mkEntry 0 false; mkEntry 1 true]) = [(100%Z, 1%nat)]
  /\ ~ In (Z.min (0 * 100) 500, 1%nat)
         (fst (observer_cb [mkEntry 0 false; mkEntry 1 true])).
Proof.
  split; [reflexivity |]. simpl. intros [H | []]. discriminate.
Qed.

(** C9 (as the code has it). Without IntersectionObserver,
    initScrollAnimations observes nothing, keeps every element's classes,
    sets opacity '1' and transform 'none' on the elements that already carry
    the class 'animate-on-scroll', and leaves every other element (the
    scroll-reveal targets included, which it never tags) unchanged. *)
Theorem io_fallback_marks_tagged doc :
  snd (initScrollAnimations false doc) = []
  /\ List.length (fst (initScrollAnimations false doc)) = List.length doc
  /\ forall i e, nth_error doc i = Some e ->
       exists e', nth_error (fst (initScrollAnimations false doc)) i = Some e'
                  /\ classes e' = classes e
                  /\ (if has_class "animate-on-scroll" e
                      then opacity e' = Some "1"%string
                           /\ transform e' = Some "none"%string
                      else e' = e).
Proof.
  simpl. split; [reflexivity |]. split; [apply length_map |].
  intros i e Hi. rewrite nth_error_map, Hi. simpl.
  destruct (has_class "animate-on-scroll" e) eqn:E; eexists; split; try reflexivity.
  - simpl. auto.
  - auto.
Qed.

(** C9 fails as stated: a '.feature-card' element, which would be observed
    when IntersectionObserver exists, is not made visible by the fallback. *)
Lemma io_fallback_skips_untagged_target :
  snd (initScrollAnimations true [mkEl ["feature-card"%string] None None]) = [0%nat]
  /\ fst (initScrollAnimations false [mkEl ["feature-card"%string] None None])
     = [mkEl ["feature-card"%string] None None].
Proof. split; reflexivity. Qed.

End ScrollClaims.

(** ** C8: confetti *)
Module ConfettiClaims.
Import Confetti.
Open Scope Q_scope.

Section WithRandom.

Variable random : nat -> Q.
(** Math.random() returns a value in [0, 1). *)
Hypothesis random_range : forall k, 0 <= random k /\ random k < 1.

Lemma spawn_length n id k : List.length (spawn random n id k) = n.
Proof.
  revert id k. induction n as [| n IH]; intros id k; simpl; [reflexivity |].
  rewrite IH. reflexivity.
Qed.

Lemma spawn_nodes n id k nd :
  In nd (spawn random n id k) -> exists id' k', nd = mk_confetti random id' k'.
Proof.
  revert id k. induction n as [| n IH]; intros id k; simpl; [intros [] |].
  intros [<- | Hin]; [eauto | exact (IH _ _ Hin)].
Qed.

Lemma mk_confetti_props id k :
  exists s, style (mk_confetti random id k) = Some s
  /\ 5 <= width s < 15 /\ 5 <= height s < 15
  /\ 2 <= anim_duration s < 4
  /\ 3 # 10 <= c_opacity s < 1
  /\ pointer_events s = "none"%string
  /\ anim_name s = "confettiFall"%string
  /\ aria_hidden (mk_confetti random id k) = Some "true"%string.
Proof.
  eexists. split; [reflexivity |]. simpl.
  destruct (random_range k) as [H0 H1].
  destruct (random_range (k + 1)) as [H2 H3].
  destruct (random_range (k + 4)) as [H4 H5].
  repeat split; try reflexivity; lra.
Qed.

Lemma fold_fire_body (l : list (Z * timer_action)) w nd :
  In nd (body (fold_left (fun w' '(_, a) => fire a w') l w)) ->
  In nd (body w) /\ (l <> [] -> mentions_confetti nd = false).
Proof.
  revert w. induction l as [| [d a] l IH]; intros w Hin; simpl in Hin.
  - split; [exact Hin | congruence].
  - apply IH in Hin as [Hin Hl]. destruct a. simpl in Hin.
    apply filter_In in Hin as [Hin Hm].
    split; [exact Hin |]. intros _. apply negb_true_iff. exact Hm.
Qed.

(** C8. createConfetti appends exactly 50 nodes, each with size in
    [5, 15) px, fall duration in [2, 4) s, opacity in [0.3, 1), aria-hidden
    "true" and pointer-events "none"; it schedules the cleanup 4000 ms later,
    and once that time is reached none of the 50 nodes is in the document. *)
Theorem createConfetti_spec w :
  body (createConfetti random w)
    = body w ++ spawn random confettiCount (next_id w) (draws w)
  /\ List.length (spawn random confettiCount (next_id w) (draws w)) = 50%nat
  /\ (forall nd, In nd (spawn random confettiCount (next_id w) (draws w)) ->
        exists s, style nd = Some s
        /\ 5 <= width s < 15 /\ 5 <= height s < 15
        /\ 2 <= anim_duration s < 4
        /\ 3 # 10 <= c_opacity s < 1
        /\ pointer_events s = "none"%string
        /\ aria_hidden nd = Some "true"%string)
  /\ In ((now w + 4000)%Z, CleanupConfetti) (timers (createConfetti random w))
  /\ (forall nd, In nd (spawn random confettiCount (next_id w) (draws w)) ->
        ~ In nd (body (advance (now w + 4000) (createConfetti random w)))).
Proof.
  split; [reflexivity |]. split; [apply spawn_length |]. split.
  { intros nd Hnd. apply spawn_nodes in Hnd as (id & k & ->).
    destruct (mk_confetti_props id k)
      as (s & Hs & Hw & Hh & Hd & Ho & Hp & _ & Ha).
    exists s. auto 10. }
  split.
  { simpl. apply in_or_app. right. left. reflexivity. }
  intros nd Hnd Hin. unfold advance in Hin.
  apply fold_fire_body in Hin as [_ Hm].
  assert (Hm' : mentions_confetti nd = true).
  { apply spawn_nodes in Hnd as (id & k & ->). reflexivity. }
  rewrite Hm in Hm'; [discriminate |].
  intro Hnil.
  assert (Hdue : In ((now w + 4000)%Z, CleanupConfetti)
                    (filter (fun '(d, _) => (d <=? now w + 4000)%Z)
                            (timers (createConfetti random w)))).
  { apply filter_In. split; [simpl; apply in_or_app; right; left; reflexivity |].
    apply Z.leb_refl. }
  rewrite Hnil in Hdue. destruct Hdue.
Qed.

End WithRandom.

Lemma createConfetti_spec_witness :
  (forall k : nat, 0 <= (fun _ : nat => 0) k /\ (fun _ : nat => 0) k < 1)
  /\ List.length (spawn (fun _ => 0) confettiCount 0 0) = 50%nat.
Proof.
  assert (H : forall k : nat, 0 <= (fun _ : nat => 0) k /\ (fun _ : nat => 0) k < 1)
    by (intro k; split; lra).
  split; [exact H |].
  apply (createConfetti_spec (fun _ => 0) H (mkWorld [] 0 0 0%Z [])).
Defined.

End ConfettiClaims.

(** ** Further properties of the email path *)
Module EmailExtras.
Import RegexFacts EmailFacts Waitlist WaitlistFacts WaitlistCount.

Lemma in_cls_bound rs c lo0 hi0 :
  forallb (fun '(lo, hi) => (lo0 <=? lo)%Z && (hi <=? hi0)%Z) rs = true ->
  in_cls rs c = true -> (lo0 <= c <= hi0)%Z.
Proof.
  intros Hb Hc. unfold in_cls in Hc. apply existsb_exists in Hc as ([lo hi] & Hin & Hc).
  rewrite forallb_forall in Hb. specialize (Hb _ Hin). simpl in Hb.
  rewrite andb_true_iff, !Z.leb_le in Hb, Hc. lia.
Qed.

Lemma js_ws_range c : js_ws c = true -> (c <= 32 \/ 160 <= c)%Z.
Proof.
  unfold js_ws. rewrite orb_true_iff, existsb_exists.
  intros [(x & Hx & Heq) | H].
  - apply Z.eqb_eq in Heq. subst x. simpl in Hx.
    repeat (destruct Hx as [<- | Hx]; [lia |]). destruct Hx.
  - rewrite andb_true_iff, !Z.leb_le in H. lia.
Qed.

Lemma valid_printable s c :
  isValidEmail s = true -> In c s -> (33 <= c <= 126)%Z.
Proof.
  intros H Hc. apply isValidEmail_iff in H
    as (local & labels & -> & _ & Hloc & _ & Hls & _).
  apply in_app_or in Hc as [Hc | [<- | Hc]].
  - rewrite Forall_forall in Hloc.
    apply (in_cls_bound local_ranges); [vm_compute; reflexivity | auto].
  - vm_compute. split; discriminate.
  - apply in_join in Hc as [-> | (l & Hl & Hx)]; [vm_compute; split; discriminate |].
    rewrite Forall_forall in Hls. specialize (Hls l Hl).
    unfold label_ok in Hls. rewrite !andb_true_iff in Hls.
    destruct Hls as [[[[_ _] Hall] _] _]. rewrite forallb_forall in Hall.
    apply (in_cls_bound ldh_ranges); [vm_compute; reflexivity | auto].
Qed.

Lemma drop_ws_noop s : (forall c, In c s -> js_ws c = false) -> drop_ws s = s.
Proof.
  destruct s as [| c s]; intro H; [reflexivity |]. simpl.
  rewrite (H c (or_introl eq_refl)). reflexivity.
Qed.

(** Every address isValidEmail accepts consists of printable ASCII
    characters (codes 33 to 126: no whitespace, nothing outside ASCII), so
    trimming it again leaves it unchanged. *)
Theorem valid_email_printable_trimmed s :
  isValidEmail s = true ->
  (forall c, In c s -> (33 <= c <= 126)%Z) /\ trim s = s.
Proof.
  intro H. split; [intros c; apply valid_printable; exact H |].
  assert (Hw : forall c, In c s -> js_ws c = false).
  { intros c Hc. destruct (js_ws c) eqn:E; [| reflexivity].
    apply js_ws_range in E. apply (valid_printable s c H) in Hc. lia. }
  unfold trim. rewrite (drop_ws_noop s Hw), drop_ws_noop, rev_involutive;
    [reflexivity |].
  intros c Hc. apply Hw. apply in_rev. exact Hc.
Qed.

Lemma valid_email_printable_trimmed_witness :
  isValidEmail (js "a@b.co") = true
  /\ ((forall c, In c (js "a@b.co") -> (33 <= c <= 126)%Z)
      /\ trim (js "a@b.co") = js "a@b.co").
Proof.
  assert (H : isValidEmail (js "a@b.co") = true) by (vm_compute; reflexivity).
  split; [exact H | exact (valid_email_printable_trimmed _ H)].
Defined.

Lemma split_on_nonempty sep s : split_on sep s <> [].
Proof.
  induction s as [| c s IH]; simpl; [discriminate |].
  destruct (c =? sep)%Z; [discriminate |].
  destruct (split_on sep s); discriminate.
Qed.

Lemma join_cons2 sep l ls :
  join sep (l :: ls) = l ++ match ls with [] => [] | _ => sep :: join sep ls end.
Proof. destruct ls; simpl; [rewrite app_nil_r |]; reflexivity. Qed.

(** String.prototype.split with a one-character separator, followed by
    joining the pieces with that separator, gives back the string. *)
Theorem join_split_on sep s : join sep (split_on sep s) = s.
Proof.
  induction s as [| c s IH]; simpl; [reflexivity |].
  destruct (Z.eqb_spec c sep) as [-> | Hne].
  - rewrite join_cons2.
    destruct (split_on sep s) as [| j l] eqn:E;
      [exfalso; exact (split_on_nonempty sep s E) |].
    simpl app. rewrite <- IH. reflexivity.
  - destruct (split_on sep s) as [| w ws] eqn:E;
      [exfalso; exact (split_on_nonempty sep s E) |].
    rewrite join_cons2. rewrite join_cons2 in IH. simpl. rewrite IH. reflexivity.
Qed.

(** An accepted address contains exactly one '@', and email.split('@')
    cuts it into exactly two pieces: the non-empty local part and the
    domain. *)
Theorem valid_email_split s :
  isValidEmail s = true ->
  count_occ Z.eq_dec s (cu "@") = 1%nat
  /\ exists local domain, local <> [] /\ split_on (cu "@") s = [local; domain]
                          /\ s = local ++ cu "@" :: domain.
Proof.
  intro H. destruct (valid_email_parts s H) as (local & domain & -> & Hne & Hl & Hd).
  split.
  - rewrite count_occ_app. simpl. destruct (Z.eq_dec (cu "@") (cu "@")); [| congruence].
    rewrite !(proj1 (count_occ_not_In _ _ _)) by assumption. reflexivity.
  - exists local, domain. split; [exact Hne |]. split; [| reflexivity].
    rewrite split_on_app, split_on_noin by assumption. reflexivity.
Qed.

Lemma valid_email_split_witness :
  isValidEmail (js "a@b.co") = true
  /\ (count_occ Z.eq_dec (js "a@b.co") (cu "@") = 1%nat
      /\ exists local domain, local <> [] /\ split_on (cu "@") (js "a@b.co") = [local; domain]
                              /\ js "a@b.co" = local ++ cu "@" :: domain).
Proof.
  assert (H : isValidEmail (js "a@b.co") = true) by (vm_compute; reflexivity).
  split; [exact H | exact (valid_email_split _ H)].
Defined.

(** After a successful submission the form is hidden and the success panel
    shown, while the submit button stays disabled, busy and labelled
    "Joining...": the success path never re-enables it. *)
Theorem success_keeps_button_busy en u v :
  isValidEmail (trim v) = true ->
  btn (handleFormSubmit en u v (Response true))
    = mkButton true (Some "true"%string) joining_html
  /\ form_display (handleFormSubmit en u v (Response true)) = Some "none"%string
  /\ success_show (handleFormSubmit en u v (Response true)) = true.
Proof.
  intro H. unfold handleFormSubmit. rewrite (submit_start_valid u v H).
  simpl. destruct (reduced_motion en); simpl; auto.
Qed.

Lemma success_keeps_button_busy_witness :
  isValidEmail (trim (js "a@b.co")) = true
  /\ (btn (handleFormSubmit (mkEnv false false "example.com")
             (mkUi (mkButton false None "Join") None false []) (js "a@b.co")
             (Response true))
        = mkButton true (Some "true"%string) joining_html
      /\ form_display (handleFormSubmit (mkEnv false false "example.com")
             (mkUi (mkButton false None "Join") None false []) (js "a@b.co")
             (Response true)) = Some "none"%string
      /\ success_show (handleFormSubmit (mkEnv false false "example.com")
             (mkUi (mkButton false None "Join") None false []) (js "a@b.co")
             (Response true)) = true).
Proof.
  assert (H : isValidEmail (trim (js "a@b.co")) = true) by (vm_compute; reflexivity).
  split; [exact H | exact (success_keeps_button_busy _ _ _ H)].
Defined.

Lemma invalid_handle en u v r :
  isValidEmail (trim v) = false ->
  handleFormSubmit en u v r
  = mkUi (btn u) (form_display u) (success_show u)
         (log u ++ [Shake; FocusEmail; Announce msg_invalid]).
Proof.
  intro H. unfold handleFormSubmit, submit_start. cbv zeta.
  rewrite H, orb_true_r. unfold emit. simpl. rewrite <- !app_assoc. reflexivity.
Qed.

Lemma handle_counts en u v r :
  exists es, log (handleFormSubmit en u v r) = log u ++ es
  /\ List.length (filter is_fetch es) = (if isValidEmail (trim v) then 1 else 0)%nat
  /\ List.length (filter is_announce es) = 1%nat.
Proof.
  destruct (isValidEmail (trim v)) eqn:Hv.
  - unfold handleFormSubmit. rewrite (submit_start_valid u v Hv).
    unfold submit_finish. destruct r as [| [|]]; simpl.
    + eexists. rewrite <- !app_assoc. split; [reflexivity |]. simpl. auto.
    + destruct (reduced_motion en); simpl; eexists; rewrite <- !app_assoc;
        (split; [reflexivity |]); simpl; unfold trackEvent;
        destruct (gtag_defined en), (_ || _)%bool; simpl; auto.
    + eexists. rewrite <- !app_assoc. split; [reflexivity |]. simpl. auto.
  - rewrite (invalid_handle en u v r Hv).
    eexists. split; [reflexivity |]. simpl. auto.
Qed.

End EmailExtras.

Module WaitlistExtras.
Import Waitlist WaitlistCount EmailExtras.

(** Over any sequence of submit events, the handler issues exactly one
    network request per event whose trimmed email value is valid, none for
    the others, and exactly one screen-reader announcement per event. *)
Theorem run_counts en u evs :
  List.length (filter is_fetch (log (run en u evs)))
  = (List.length (filter is_fetch (log u))
     + List.length (filter (fun e => isValidEmail (trim (fst e))) evs))%nat
  /\ List.length (filter is_announce (log (run en u evs)))
     = (List.length (filter is_announce (log u)) + List.length evs)%nat.
Proof.
  revert u. induction evs as [| [v r] evs IH]; intro u; simpl; [lia |].
  destruct (IH (handleFormSubmit en u v r)) as [IH1 IH2].
  destruct (handle_counts en u v r) as (es & Hl & Hf & Ha).
  rewrite Hl, filter_app, length_app in IH1, IH2.
  rewrite IH1, IH2, Hf, Ha.
  destruct (isValidEmail (trim v)); simpl; lia.
Qed.

End WaitlistExtras.

(** ** Further properties of scroll reveal *)
Module ScrollExtras.
Import ScrollReveal.

Lemma observer_cb_from_delays entries j :
  Forall (fun d => (Z.min (Z.of_nat j * 100) 500 <= d <= 500)%Z)
         (map fst (fst (observer_cb_from entries j)))
  /\ Sorted Z.le (map fst (fst (observer_cb_from entries j))).
Proof.
  revert j. induction entries as [| en rest IH]; intro j; simpl.
  - split; constructor.
  - destruct (IH (S j)) as [H1 H2]. rewrite Nat2Z.inj_succ in H1.
    destruct (observer_cb_from rest (S j)) as [ts us]. simpl in *.
    destruct (isIntersecting en); simpl.
    + split.
      * constructor; [lia |].
        eapply Forall_impl; [| exact H1]. intros d Hd. cbv beta in *. lia.
      * constructor; [exact H2 |].
        destruct (map fst ts) as [| d ds]; constructor.
        inversion H1; subst. lia.
    + split; [| exact H2].
      eapply Forall_impl; [| exact H1]. intros d Hd. cbv beta in *. lia.
Qed.

(** Within one batch the stagger delays lie between 0 and 500 ms and never
    decrease in the order the entries are reported. *)
Theorem observer_delays_sorted_capped entries :
  Forall (fun d => (0 <= d <= 500)%Z) (map fst (fst (observer_cb entries)))
  /\ Sorted Z.le (map fst (fst (observer_cb entries))).
Proof.
  destruct (observer_cb_from_delays entries 0) as [H1 H2].
  split; [| exact H2]. eapply Forall_impl; [| exact H1]. intros d Hd. simpl in Hd. lia.
Qed.

(** The callback unobserves exactly the targets of the intersecting entries,
    in batch order, and schedules the reveal of exactly those elements: an
    element is never revealed while still observed. *)
Theorem observer_unobserves_revealed entries :
  snd (observer_cb entries) = map target (filter isIntersecting entries)
  /\ map snd (fst (observer_cb entries)) = snd (observer_cb entries).
Proof.
  unfold observer_cb. generalize 0%nat.
  induction entries as [| en rest IH]; intro j; simpl; [auto |].
  destruct (IH (S j)) as [H1 H2].
  destruct (observer_cb_from rest (S j)) as [ts us]. simpl in *.
  destruct (isIntersecting en); simpl; split; congruence.
Qed.

Lemma has_class_add c a e :
  has_class c (add_class a e) = has_class c e || String.eqb c a.
Proof.
  unfold add_class. destruct (has_class a e) eqn:E.
  - destruct (String.eqb_spec c a) as [-> | _]; [rewrite E |]; rewrite ?orb_true_r, ?orb_false_r; reflexivity.
  - unfold has_class. simpl. rewrite existsb_app. simpl. rewrite orb_false_r. reflexivity.
Qed.

Lemma is_target_add e :
  is_target (add_class "animate-on-scroll" e) = is_target e.
Proof.
  unfold is_target, target_classes. simpl. rewrite !has_class_add. simpl.
  rewrite !orb_false_r. reflexivity.
Qed.

Lemma target_positions_spec doc j i :
  In i (target_positions doc j)
  <-> (j <= i)%nat /\ exists e, nth_error doc (i - j) = Some e /\ is_target e = true.
Proof.
  revert j. induction doc as [| e doc IH]; intro j; simpl.
  - split; [intros [] | intros [_ (e & He & _)]; destruct (i - j)%nat; discriminate].
  - destruct (is_target e) eqn:Et.
    + simpl. rewrite IH. split.
      * intros [<- | [Hle (e' & He' & Ht)]].
        -- split; [lia |]. rewrite Nat.sub_diag. simpl. eauto.
        -- split; [lia |]. replace (i - j)%nat with (S (i - S j)) by lia. simpl. eauto.
      * intros [Hle (e' & He' & Ht)].
        destruct (Nat.eq_dec i j) as [-> | Hne]; [left; reflexivity | right].
        split; [lia |]. replace (i - j)%nat with (S (i - S j)) in He' by lia.
        simpl in He'. eauto.
    + rewrite IH. split.
      * intros [Hle (e' & He' & Ht)].
        split; [lia |]. replace (i - j)%nat with (S (i - S j)) by lia. simpl. eauto.
      * intros [Hle (e' & He' & Ht)].
        destruct (Nat.eq_dec i j) as [-> | Hne].
        -- rewrite Nat.sub_diag in He'. simpl in He'. injection He' as ->. congruence.
        -- split; [lia |]. replace (i - j)%nat with (S (i - S j)) in He' by lia.
           simpl in He'. eauto.
Qed.

(** With IntersectionObserver, initScrollAnimations observes exactly the
    elements matching one of the five target classes, each of which then
    carries the class 'animate-on-scroll'; other elements are untouched. *)
Theorem io_observes_targets doc :
  (forall i, In i (snd (initScrollAnimations true doc))
             <-> exists e, nth_error doc i = Some e /\ is_target e = true)
  /\ (forall i e, nth_error doc i = Some e ->
        nth_error (fst (initScrollAnimations true doc)) i
        = Some (if is_target e then add_class "animate-on-scroll" e else e))
  /\ (forall e, In e (fst (initScrollAnimations true doc)) ->
        is_target e = true -> has_class "animate-on-scroll" e = true).
Proof.
  split; [| split].
  - intro i. simpl. rewrite target_positions_spec, Nat.sub_0_r.
    split; [intros [_ H]; exact H | intro H; split; [lia | exact H]].
  - intros i e H. simpl. rewrite nth_error_map, H. reflexivity.
  - intros e He Ht. simpl in He. apply in_map_iff in He as (e0 & <- & _).
    destruct (is_target e0) eqn:E.
    + rewrite has_class_add, String.eqb_refl, orb_true_r. reflexivity.
    + congruence.
Qed.

(** Initializing scroll animations a second time over the tagged document
    changes no element: no class is added twice. *)
Theorem io_tagging_idempotent doc :
  fst (initScrollAnimations true (fst (initScrollAnimations true doc)))
  = fst (initScrollAnimations true doc).
Proof.
  simpl. rewrite map_map. apply map_ext. intro e.
  destruct (is_target e) eqn:E.
  - rewrite is_target_add, E. unfold add_class at 1.
    rewrite has_class_add, String.eqb_refl, orb_true_r. reflexivity.
  - rewrite E. reflexivity.
Qed.

End ScrollExtras.

(** ** Further properties of confetti *)
Module ConfettiExtras.
Import Confetti.
Open Scope Q_scope.

Section WithRandom.

Variable random : nat -> Q.
Hypothesis random_range : forall k, 0 <= random k /\ random k < 1.

Lemma color_index k :
  (0 <= Qfloor (random k * 4) < 4)%Z.
Proof.
  destruct (random_range k) as [H0 H1].
  pose proof (Qfloor_le (random k * 4)) as Hl.
  pose proof (Qlt_floor (random k * 4)) as Hu.
  rewrite inject_Z_plus in Hu. change (inject_Z 1) with 1 in Hu.
  split.
  - assert (Hq : inject_Z (-1) < inject_Z (Qfloor (random k * 4))).
    { unfold inject_Z at 1. lra. }
    rewrite <- Zlt_Qlt in Hq. lia.
  - assert (Hq : inject_Z (Qfloor (random k * 4)) < inject_Z 4).
    { unfold inject_Z at 2. lra. }
    rewrite <- Zlt_Qlt in Hq. exact Hq.
Qed.

(** Every confetti piece gets one of the four palette colours (the index
    Math.floor(Math.random() * 4) never leaves the array), a horizontal
    position in [0, 100) vw, a border radius of '0' or '50%', starts at
    top -20px and sits on z-index 9999. *)
Theorem confetti_palette_position n id k nd :
  In nd (spawn random n id k) ->
  exists s, style nd = Some s
  /\ In (background s) colors
  /\ 0 <= left_vw s < 100
  /\ (border_radius s = "0"%string \/ border_radius s = "50%"%string)
  /\ top s = "-20px"%string
  /\ z_index s = 9999%Z.
Proof.
  intro Hin. apply ConfettiClaims.spawn_nodes in Hin as (id' & k' & ->).
  eexists. split; [reflexivity |].
  cbn [background left_vw border_radius top z_index].
  split.
  - apply nth_In. unfold colors. simpl List.length.
    pose proof (color_index (k' + 2)). lia.
  - destruct (random_range (k' + 3)) as [H0 H1].
    split; [lra |]. split; [| auto].
    destruct (Qle_bool (random (k' + 5)) (1 # 2)); auto.
Qed.

End WithRandom.

Lemma confetti_palette_position_witness :
  (forall k : nat, 0 <= (fun k : nat => (Z.of_nat (k mod 7) # 7)) k
                   /\ (fun k : nat => (Z.of_nat (k mod 7) # 7)) k < 1)
  /\ exists s, style (mk_confetti (fun k : nat => (Z.of_nat (k mod 7) # 7)) 0 0)
                 = Some s
     /\ In (background s) colors
     /\ 0 <= left_vw s < 100
     /\ (border_radius s = "0"%string \/ border_radius s = "50%"%string)
     /\ top s = "-20px"%string
     /\ z_index s = 9999%Z.
Proof.
  assert (H : forall k : nat, 0 <= (fun k : nat => (Z.of_nat (k mod 7) # 7)) k
                             /\ (fun k : nat => (Z.of_nat (k mod 7) # 7)) k < 1).
  { intro k. cbv beta. unfold Qle, Qlt. cbn [Qnum Qden].
    assert (Hk : (k mod 7 < 7)%nat) by (apply Nat.mod_upper_bound; lia).
    split; lia. }
  split; [exact H |].
  apply (confetti_palette_position _ H 1 0 0). left. reflexivity.
Defined.

End ConfettiExtras.

(** ** Further properties of the feedback helpers *)
Module FeedbackExtras.
Import Feedback.

Lemma filter_and {A} (f g : A -> bool) l :
  filter g (filter f l) = filter (fun x => f x && g x) l.
Proof.
  induction l as [| x l IH]; simpl; [reflexivity |].
  destruct (f x); simpl; [destruct (g x); simpl |]; rewrite ?IH; reflexivity.
Qed.

(** Firing a list of timer callbacks in order. *)
Lemma fold_fire (l : list (Z * action)) w :
  fold_left (fun w' (da : Z * action) => fire (snd da) w') l w
  = mkWorld (if existsb (fun da : Z * action =>
                           match snd da with RevertShake => true | _ => false end) l
             then mkField "" "" (Some "false"%string) else field_st w)
            (filter (fun n => negb (existsb (fun da : Z * action =>
                        match snd da with
                        | RemoveNode k => Nat.eqb (node_id n) k
                        | _ => false
                        end) l)) (body w))
            (next_id w) (now w) (timers w).
Proof.
  revert w. induction l as [| [d a] l IH]; intro w; simpl.
  - destruct w as [f b i t ts]; simpl. f_equal.
    induction b as [| x b IHb]; simpl; [reflexivity | f_equal; exact IHb].
  - rewrite IH. destruct a as [| k]; simpl.
    + destruct (existsb _ l); reflexivity.
    + f_equal. rewrite filter_and. apply filter_ext. intro n.
      rewrite negb_orb. reflexivity.
Qed.

(** Once 500 ms have passed after shakeElement, the field's inline
    animation and border colour are the empty string and aria-invalid is
    'false', whatever they were before the shake: earlier inline values are
    not restored. *)
Theorem shake_reverts_after_500 w t :
  (now w + 500 <= t)%Z ->
  field_st (advance t (shakeElement w)) = mkField "" "" (Some "false"%string).
Proof.
  intro Ht. unfold advance. cbv zeta. rewrite fold_fire. simpl field_st.
  replace (existsb _ _) with true; [reflexivity |]. symmetry.
  apply existsb_exists. exists ((now w + 500)%Z, RevertShake). split; [| reflexivity].
  apply filter_In. split.
  - simpl. apply in_or_app. right. left. reflexivity.
  - apply Z.leb_le. exact Ht.
Qed.

Lemma shake_reverts_after_500_witness :
  let w := mkWorld (mkField "pulse 1s" "#00ff00" None) [] 0 0%Z [] in
  (now w + 500 <= 600)%Z
  /\ field_st (advance 600 (shakeElement w)) = mkField "" "" (Some "false"%string).
Proof.
  intro w. split; [simpl; lia |].
  apply (shake_reverts_after_500 w 600). simpl. lia.
Defined.

(** Once 1000 ms have passed, an announcement leaves no trace: provided the
    node ids in the body are below the next fresh id, the field, the body and
    the pending timers are those the page would have had without the call. *)
Theorem announce_leaves_no_trace msg w t :
  (forall n, In n (body w) -> (node_id n < next_id w)%nat) ->
  (now w + 1000 <= t)%Z ->
  field_st (advance t (announceToScreenReader msg w)) = field_st (advance t w)
  /\ body (advance t (announceToScreenReader msg w)) = body (advance t w)
  /\ timers (advance t (announceToScreenReader msg w)) = timers (advance t w).
Proof.
  intros Hfresh Ht. unfold advance. cbv zeta. rewrite !fold_fire.
  unfold announceToScreenReader. cbn [field_st body timers next_id now].
  assert (Hd : (now w + 1000 <=? t)%Z = true) by (apply Z.leb_le; exact Ht).
  assert (Hdue : filter (fun '(d, _) => (d <=? t)%Z)
                   [((now w + 1000)%Z, RemoveNode (next_id w))]
                 = [((now w + 1000)%Z, RemoveNode (next_id w))])
    by (simpl; rewrite Hd; reflexivity).
  assert (Hpend : filter (fun '(d, _) => negb (d <=? t)%Z)
                    [((now w + 1000)%Z, RemoveNode (next_id w))] = [])
    by (simpl; rewrite Hd; reflexivity).
  rewrite !filter_app, Hdue, Hpend, app_nil_r, !existsb_app.
  split; [| split; [| reflexivity]].
  - simpl existsb at 2. rewrite orb_false_r. reflexivity.
  - replace (filter _ [StatusNode _ _ _ _ _ _]) with (@nil node)
      by (simpl; rewrite existsb_app; simpl; rewrite Nat.eqb_refl, orb_true_r; reflexivity).
    rewrite app_nil_r. apply filter_ext_in. intros n Hn.
    rewrite existsb_app. simpl existsb at 2.
    replace (Nat.eqb (node_id n) (next_id w)) with false
      by (symmetry; apply Nat.eqb_neq; specialize (Hfresh n Hn); lia).
    rewrite !orb_false_r. reflexivity.
Qed.

Lemma announce_leaves_no_trace_witness :
  let w := mkWorld (mkField "" "" None) [OtherNode 0] 1 0%Z
                   [(300%Z, RevertShake)] in
  ((forall n, In n (body w) -> (node_id n < next_id w)%nat) /\ (now w + 1000 <= 1000)%Z)
  /\ body (advance 1000 (announceToScreenReader "Done" w)) = body (advance 1000 w).
Proof.
  intro w.
  assert (H : forall n, In n (body w) -> (node_id n < next_id w)%nat).
  { intros n [<- | []]. simpl. lia. }
  split; [split; [exact H | simpl; lia] |].
  apply (announce_leaves_no_trace "Done" w 1000 H). simpl. lia.
Defined.

End FeedbackExtras.

(** ** Further properties of smooth scrolling *)
Module SmoothScrollExtras.
Import SmoothScroll.
Open Scope Q_scope.

(** The click listener cancels the browser's default navigation exactly when
    the href is not '#' and document.querySelector finds an element; it throws
    exactly when the href is not '#' and is not a valid selector; in every
    other case it has no effect at all. *)
Theorem anchor_click_outcome en targetId :
  (In PreventDefault (fst (on_anchor_click en targetId))
   <-> targetId <> "#"%string /\ exists top, querySelector en targetId = Found top)
  /\ (snd (on_anchor_click en targetId) = true
      <-> targetId <> "#"%string /\ querySelector en targetId = SelectorError)
  /\ ((forall top, querySelector en targetId <> Found top) ->
      fst (on_anchor_click en targetId) = []).
Proof.
  unfold on_anchor_click.
  destruct (String.eqb_spec targetId "#") as [-> | Hne].
  - simpl. split; [| split]; [split; [intros [] | intros [H _]; congruence]
                             | split; [discriminate | intros [H _]; congruence]
                             | reflexivity].
  - destruct (querySelector en targetId) as [top | |] eqn:Eq.
    + split; [| split].
      * split; [intros _; split; [exact Hne | eauto] |]. intros _. simpl. auto.
      * simpl. split; [discriminate | intros [_ H]; discriminate].
      * intro H. exfalso. exact (H top eq_refl).
    + simpl. split; [| split].
      * split; [intros [] | intros [_ [top H]]; discriminate].
      * split; [discriminate | intros [_ H]; discriminate].
      * reflexivity.
    + simpl. split; [| split].
      * split; [intros [] | intros [_ [top H]]; discriminate].
      * split; [intros _; auto | reflexivity].
      * reflexivity.
Qed.

End SmoothScrollExtras.

(** ** Further properties of the navbar scroll effect *)
Module NavbarExtras.
Import Navbar.
Open Scope Q_scope.

Lemma nav_step_inv n e :
  (ticking n = true /\ queued n = 1%nat) \/ (ticking n = false /\ queued n = 0%nat) ->
  let n' := nav_step n e in
  (ticking n' = true /\ queued n' = 1%nat) \/ (ticking n' = false /\ queued n' = 0%nat).
Proof.
  intro H. cbv zeta. destruct n as [t q b s]; simpl in H.
  destruct H as [[-> ->] | [-> ->]]; destruct e as [| y];
    unfold nav_step, on_scroll, on_frame; simpl; auto.
  unfold updateNavbar. destruct (negb (Qle_bool y 100)); simpl; auto.
Qed.

Lemma nav_run_inv n evs :
  (ticking n = true /\ queued n = 1%nat) \/ (ticking n = false /\ queued n = 0%nat) ->
  let n' := nav_run n evs in
  (ticking n' = true /\ queued n' = 1%nat) \/ (ticking n' = false /\ queued n' = 0%nat).
Proof.
  cbv zeta. unfold nav_run. revert n. induction evs as [| e evs IH]; intros n H; simpl.
  - exact H.
  - apply IH. apply (nav_step_inv n e H).
Qed.

(** The ticking flag throttles the scroll listener: starting from the
    initial state, at most one updateNavbar callback is ever waiting for an
    animation frame, and one is waiting exactly when ticking is set. *)
Theorem navbar_at_most_one_pending bg sh evs :
  let n := nav_run (mkNav false 0 bg sh) evs in
  (queued n <= 1)%nat /\ (queued n = 1%nat <-> ticking n = true).
Proof.
  cbv zeta.
  destruct (nav_run_inv (mkNav false 0 bg sh) evs (or_intror (conj eq_refl eq_refl)))
    as [[-> ->] | [-> ->]]; split; try lia; split; congruence.
Qed.

(** At any point of a run, the next animation frame sets the dark
    background with a shadow when the page is scrolled more than 100 px and
    the lighter one without shadow otherwise, provided a scroll event is
    waiting for it; with none waiting the frame changes nothing. *)
Theorem navbar_frame_style bg sh evs y :
  let n := nav_run (mkNav false 0 bg sh) evs in
  on_frame y n
  = if ticking n then
      (if Qlt_le_dec 100 y
       then mkNav false 0 "rgba(10, 10, 15, 0.95)" "0 4px 30px rgba(0, 0, 0, 0.3)"
       else mkNav false 0 "rgba(10, 10, 15, 0.8)" "none")
    else n.
Proof.
  cbv zeta.
  destruct (nav_run_inv (mkNav false 0 bg sh) evs (or_intror (conj eq_refl eq_refl)))
    as [[Ht Hq] | [Ht Hq]];
  destruct (nav_run (mkNav false 0 bg sh) evs) as [t q b s];
  simpl in Ht, Hq; subst; unfold on_frame; simpl.
  - unfold updateNavbar. simpl.
    destruct (Qlt_le_dec 100 y) as [H | H].
    + replace (Qle_bool y 100) with false; [reflexivity |].
      symmetry. apply not_true_iff_false. rewrite Qle_bool_iff. lra.
    + replace (Qle_bool y 100) with true; [reflexivity |].
      symmetry. apply Qle_bool_iff. exact H.
  - reflexivity.
Qed.

End NavbarExtras.

(** ** Further properties of the parallax effect *)
Module ParallaxExtras.
Import Parallax.
Open Scope Q_scope.

Lemma moves_ignored_while_pending es s e :
  raf s = Some e -> fold_left (fun s e => on_mousemove e s) es s = s.
Proof.
  revert s. induction es as [| e' es IH]; intros s H; simpl; [reflexivity |].
  unfold on_mousemove at 2. rewrite H. apply IH, H.
Qed.

(** Between two animation frames only the first mousemove counts: the next
    frame translates the hero visual by the offset of that first pointer
    position from the visual's centre, divided by 50, and every later move
    before the frame is ignored. *)
Theorem parallax_first_move_wins r s e es :
  raf s = None ->
  on_frame r (fold_left (fun s e => on_mousemove e s) (e :: es) s)
  = mkPx None (Some ((clientX e - (r_left r + r_width r / 2)) / 50,
                     (clientY e - (r_top r + r_height r / 2)) / 50)).
Proof.
  intro H. cbn [fold_left].
  replace (on_mousemove e s) with (mkPx (Some e) (translate s))
    by (unfold on_mousemove; rewrite H; reflexivity).
  rewrite (moves_ignored_while_pending es (mkPx (Some e) (translate s)) e eq_refl).
  reflexivity.
Qed.

Lemma parallax_first_move_wins_witness :
  raf (mkPx None None) = None
  /\ on_frame (mkRect 0 0 400 300)
       (fold_left (fun s e => on_mousemove e s)
                  [mkMouse 250 150; mkMouse 0 0] (mkPx None None))
     = mkPx None (Some ((250 - (0 + 400 / 2)) / 50, (150 - (0 + 300 / 2)) / 50)).
Proof.
  split; [reflexivity |].
  exact (parallax_first_move_wins (mkRect 0 0 400 300) (mkPx None None)
           (mkMouse 250 150) [mkMouse 0 0] eq_refl).
Defined.

(** While the pointer is over the hero visual, the translation applied by a
    frame is at most a hundredth of the visual's width horizontally and of
    its height vertically, in either direction. *)
Theorem parallax_offset_bounded r s e :
  raf s = Some e ->
  r_left r <= clientX e <= r_left r + r_width r ->
  r_top r <= clientY e <= r_top r + r_height r ->
  exists dx dy, translate (on_frame r s) = Some (dx, dy)
  /\ - (r_width r / 100) <= dx <= r_width r / 100
  /\ - (r_height r / 100) <= dy <= r_height r / 100.
Proof.
  intros H Hx Hy. unfold on_frame. rewrite H. simpl.
  do 2 eexists. split; [reflexivity |].
  unfold Qdiv. change (/ 2) with (1 # 2). change (/ 50) with (1 # 50).
  change (/ 100) with (1 # 100).
  split; split; lra.
Qed.

Lemma parallax_offset_bounded_witness :
  let r := mkRect 100 50 400 300 in
  let e := mkMouse 480 60 in
  (raf (mkPx (Some e) None) = Some e
   /\ r_left r <= clientX e <= r_left r + r_width r
   /\ r_top r <= clientY e <= r_top r + r_height r)
  /\ exists dx dy, translate (on_frame r (mkPx (Some e) None)) = Some (dx, dy)
     /\ - (r_width r / 100) <= dx <= r_width r / 100
     /\ - (r_height r / 100) <= dy <= r_height r / 100.
Proof.
  intros r e.
  assert (Hx : r_left r <= clientX e <= r_left r + r_width r)
    by (simpl; split; lra).
  assert (Hy : r_top r <= clientY e <= r_top r + r_height r)
    by (simpl; split; lra).
  split; [split; [reflexivity | split; [exact Hx | exact Hy]] |].
  exact (parallax_offset_bounded r (mkPx (Some e) None) e eq_refl Hx Hy).
Defined.

End ParallaxExtras.

(** ** Further properties of the keyframes injection *)
Module InjectExtras.

(** The injection never creates a second 'vectorfx-animations' element:
    afterwards the id occurs once in the document if it was missing and as
    often as before otherwise; the body is untouched, the head keeps its
    elements in order (the style element, if added, comes after them), and
    running the injection again changes nothing. *)
Theorem injectAnimations_once d :
  count_occ string_dec (head_ids (injectAnimations d) ++ body_ids (injectAnimations d))
            "vectorfx-animations"%string
    = Nat.max 1 (count_occ string_dec (head_ids d ++ body_ids d)
                           "vectorfx-animations"%string)
  /\ body_ids (injectAnimations d) = body_ids d
  /\ (exists extra, head_ids (injectAnimations d) = head_ids d ++ extra)
  /\ injectAnimations (injectAnimations d) = injectAnimations d.
Proof.
  unfold injectAnimations.
  destruct (existsb (String.eqb "vectorfx-animations") (head_ids d ++ body_ids d)) eqn:E.
  - rewrite E.
    apply existsb_exists in E as (x & Hx & Hxe).
    apply String.eqb_eq in Hxe. subst x.
    apply (count_occ_In string_dec) in Hx.
    split; [lia |]. split; [reflexivity |].
    split; [exists []; rewrite app_nil_r; reflexivity | reflexivity].
  - assert (Hn : ~ In "vectorfx-animations"%string (head_ids d ++ body_ids d)).
    { intro Hin.
      assert (Hc : existsb (String.eqb "vectorfx-animations") (head_ids d ++ body_ids d)
                   = true).
      { apply existsb_exists. exists "vectorfx-animations"%string.
        split; [exact Hin | apply String.eqb_refl]. }
      congruence. }
    apply (count_occ_not_In string_dec) in Hn.
    cbn [head_ids body_ids].
    rewrite !existsb_app. simpl existsb at 2. rewrite orb_true_r. simpl orb.
    rewrite count_occ_app in Hn |- *. rewrite count_occ_app. simpl count_occ at 2.
    destruct (string_dec "vectorfx-animations" "vectorfx-animations"); [| congruence].
    split; [rewrite count_occ_app; lia |]. split; [reflexivity |]. split; [eauto | reflexivity].
Qed.

End InjectExtras.

(** ** Further properties of the bootstrap *)
Module BootstrapExtras.
Import Bootstrap.

Lemma run_inits_shape {St} (fs : list (string * initializer St)) s inv :
  let '(_, inv', err) := run_inits fs s inv in
  (exists k, inv' = inv ++ firstn k (map fst fs))
  /\ (err = None -> inv' = inv ++ map fst fs).
Proof.
  revert s inv. induction fs as [| [name f] fs IH]; intros s inv; simpl.
  - split; [exists 0%nat | intros _]; simpl; rewrite app_nil_r; reflexivity.
  - destruct (f s) as [s1 [e |]].
    + split; [exists 1%nat; reflexivity | discriminate].
    + specialize (IH s1 (inv ++ [name])).
      destruct (run_inits fs s1 (inv ++ [name])) as [[s2 inv'] err].
      destruct IH as [(k & Hk) He]. split.
      * exists (S k). rewrite Hk, <- app_assoc. reflexivity.
      * intro H. rewrite (He H), <- app_assoc. reflexivity.
Qed.

(** Whatever the initializers do, init invokes a prefix of them in order,
    logs at most one error, and when it logs none every initializer has been
    invoked. *)
Theorem init_prefix_single_error {St} (fs : list (string * initializer St)) s :
  (exists k, invoked (init fs s) = firstn k (map fst fs))
  /\ (List.length (console (init fs s)) <= 1)%nat
  /\ (console (init fs s) = [] -> invoked (init fs s) = map fst fs).
Proof.
  unfold init. pose proof (run_inits_shape fs s []) as H.
  destruct (run_inits fs s []) as [[s' inv] err]. simpl.
  destruct H as [Hk He]. split; [exact Hk |].
  destruct err as [e |]; simpl.
  - split; [lia | discriminate].
  - split; [lia | intros _; apply He; reflexivity].
Qed.

End BootstrapExtras.
